(** * trading-charts: the indicator computations, the live-feed handler and
      the market-data route, embedded from
      [src/app/components/CandlestickChart.tsx] (which also carries the text
      of the [api/market] route).

    Numbers.  A JavaScript [number] is modelled by [num]: an exact rational
    ([Qc], canonical fractions, so that equal numbers are equal terms)
    extended with [+Infinity], [-Infinity] and [NaN], with the arithmetic of
    the language on the non-finite values.  Rounding and overflow of the
    binary64 format and the sign of zero are not modelled: every finite
    operation is exact.

    Exceptions.  Code that can throw runs in the monad [js]; a property
    access on [undefined] or [null] is a [TypeError], as in the language. *)

From Stdlib Require Import QArith Qcanon.
From Stdlib Require Qcabs.
From stdpp Require Import base numbers list strings option pretty.

Local Open Scope Qc_scope.

(** ** Numbers *)

Inductive num : Type :=
  | Fin (q : Qc)
  | PInf
  | NInf
  | NaN.

Declare Scope num_scope.
Delimit Scope num_scope with num.
Bind Scope num_scope with num.

Global Instance num_eq_dec : EqDecision num.
Proof. solve_decision. Defined.

(** Integer literals of the source, and the literal [0.001]. *)
Definition lit (z : Z) : num := Fin (Qc_of_Z z).
Definition of_nat (n : nat) : num := lit (Z.of_nat n).
Definition milli : Qc := Q2Qc (1 # 1000).

Definition nneg (a : num) : num :=
  match a with
  | Fin q => Fin (- q)
  | PInf => NInf
  | NInf => PInf
  | NaN => NaN
  end.

Definition nadd (a b : num) : num :=
  match a, b with
  | NaN, _ | _, NaN => NaN
  | Fin p, Fin q => Fin (p + q)
  | PInf, NInf | NInf, PInf => NaN
  | PInf, _ | _, PInf => PInf
  | NInf, _ | _, NInf => NInf
  end.

Definition nsub (a b : num) : num := nadd a (nneg b).

(** Sign of a number, as the comparison of 0 with it: [Lt] positive, [Eq]
    zero, [Gt] negative; none for NaN. *)
Definition sign (a : num) : option comparison :=
  match a with
  | Fin q => Some (0 ?= q)%Qc
  | PInf => Some Lt
  | NInf => Some Gt
  | NaN => None
  end.

(** The infinity carrying the product of two signs. *)
Definition inf_of_signs (s t : comparison) : num :=
  match s, t with
  | Eq, _ | _, Eq => NaN
  | Lt, Lt | Gt, Gt => PInf
  | _, _ => NInf
  end.

Definition nmul (a b : num) : num :=
  match a, b with
  | Fin p, Fin q => Fin (p * q)
  | _, _ =>
      match sign a, sign b with
      | Some s, Some t => inf_of_signs s t
      | _, _ => NaN
      end
  end.

Definition ndiv (a b : num) : num :=
  match a, b with
  | NaN, _ | _, NaN => NaN
  | Fin p, Fin q =>
      if decide (q = 0) then
        (if decide (p = 0) then NaN else if decide (0 < p) then PInf else NInf)
      else Fin (p / q)
  | Fin _, _ => Fin 0
  | _, Fin q => if decide (0 ≤ q) then a else nneg a
  | _, _ => NaN
  end.

(** [Math.abs] *)
Definition Math_abs (a : num) : num :=
  match a with
  | Fin q => Fin (Qcabs.Qcabs q)
  | PInf | NInf => PInf
  | NaN => NaN
  end.

(** [a < b]; every comparison with NaN is false. *)
Definition nlt (a b : num) : bool :=
  match a, b with
  | NaN, _ | _, NaN => false
  | Fin p, Fin q => bool_decide (p < q)
  | Fin _, PInf | NInf, Fin _ | NInf, PInf => true
  | Fin _, NInf | PInf, _ | NInf, NInf => false
  end.

Definition ngt (a b : num) : bool := nlt b a.

(** [a === b] on numbers: NaN differs from itself. *)
Definition nstrict_eq (a b : num) : bool :=
  match a, b with
  | NaN, _ | _, NaN => false
  | _, _ => bool_decide (a = b)
  end.

(** [a >= b] *)
Definition nge (a b : num) : bool := ngt a b || nstrict_eq a b.

Infix "+" := nadd : num_scope.
Infix "-" := nsub : num_scope.
Infix "*" := nmul : num_scope.
Infix "/" := ndiv : num_scope.

Definition finite (a : num) : Prop := ∃ q, a = Fin q.

(** ** Exceptions *)

Inductive exn : Type :=
  | TypeError
  | SyntaxError
  | Error (msg : string).

Inductive js (A : Type) : Type :=
  | Ret (a : A)
  | Throw (e : exn).
Global Arguments Ret {A} a.
Global Arguments Throw {A} e.

Global Instance exn_eq_dec : EqDecision exn.
Proof. solve_decision. Defined.
Global Instance js_eq_dec `{EqDecision A} : EqDecision (js A).
Proof. solve_decision. Defined.

Global Instance js_ret : MRet js := λ A a, Ret a.
Global Instance js_bind : MBind js := λ A B f m,
  match m with
  | Ret a => f a
  | Throw e => Throw e
  end.

(** [try { m } catch (error) { h error }] *)
Definition try_catch {A} (m : js A) (h : exn → js A) : js A :=
  match m with
  | Ret a => Ret a
  | Throw e => h e
  end.

(** [for (let i = from; i < to; i++) body], the loop state threaded through. *)
Fixpoint for_range {S : Type} (body : nat → S → js S) (idx : list nat) (s : S)
    : js S :=
  match idx with
  | [] => Ret s
  | i :: idx => s' ← body i s; for_range body idx s'
  end.

Definition for_loop {S : Type} (from to : nat) (body : nat → S → js S) (s : S)
    : js S :=
  for_range body (seq from (to - from)) s.

(** [a[i]] followed by a property access: [undefined.close] throws. *)
Definition elem {A} (a : list A) (i : nat) : js A :=
  match a !! i with
  | Some v => Ret v
  | None => Throw TypeError
  end.

(** [a[i]] of a [number[]] used as a number: [undefined] coerces to NaN. *)
Definition numAt (a : list num) (i : nat) : num := default NaN (a !! i).

(** ** The chart component: data *)

Module Chart.

(** [interface KlineData].  The values reach the component through
    [response.json()], so a field of type [number] holds a finite number. *)
Record KlineData : Type := {
  timestamp : Qc;
  open : Qc;
  high : Qc;
  low : Qc;
  close : Qc;
  volume : Qc
}.

(** [new Date(ms)] keeps the time value it was built from. *)
Record Date : Type := new_Date { time_value : Qc }.

(** A point [{ x, y }] of an indicator series. *)
Record Point : Type := { x : Date; y : num }.

(** A point [{ x, y: [open, high, low, close] }] of the candle series. *)
Record OhlcPoint : Type := { ohlc_x : Date; ohlc_y : list Qc }.

(** A point [{ x, y, fillColor }] of the volume series. *)
Record VolumePoint : Type := { vol_x : Date; vol_y : Qc; fillColor : string }.

Global Instance Date_eq_dec : EqDecision Date.
Proof. solve_decision. Defined.
Global Instance Point_eq_dec : EqDecision Point.
Proof. solve_decision. Defined.

(** ** Indicators *)

Local Open Scope num_scope.

(** The two lines
    [rs = avgGain / (avgLoss === 0 ? 0.001 : avgLoss);
     rsiValue = 100 - 100 / (1 + rs)],
    which the source writes once for the first value and once in the loop. *)
Definition rsiValue (avgGain avgLoss : num) : num :=
  let rs := avgGain / (if nstrict_eq avgLoss (lit 0) then Fin milli else avgLoss) in
  lit 100 - lit 100 / (lit 1 + rs).

(** [calculateRSI(data, period)], for a [period] that is a natural number
    (the only call passes 14).  The index [i - 1] of the first loop is
    taken for [i ≥ 1] only. *)
Definition calculateRSI (data : list KlineData) (period : nat) : js (list Point) :=
  if decide (length data ≤ period)%nat then Ret [] else
  changes ← for_loop 1 (length data) (λ i changes,
      cur ← elem data i;
      prev ← elem data (i - 1)%nat;
      Ret (changes ++ [Fin (close cur) - Fin (close prev)])) [];
  '(avgGain, avgLoss) ← for_loop 0 period (λ i '(avgGain, avgLoss),
      if ngt (numAt changes i) (lit 0)
      then Ret (avgGain + numAt changes i, avgLoss)
      else Ret (avgGain, avgLoss + Math_abs (numAt changes i)))
    (lit 0, lit 0);
  let avgGain := avgGain / of_nat period in
  let avgLoss := avgLoss / of_nat period in
  first ← elem data period;
  let result := [{| x := new_Date (timestamp first);
                    y := rsiValue avgGain avgLoss |}] in
  '(_, _, result) ← for_loop period (length changes)
    (λ i '(avgGain, avgLoss, result),
      let change := numAt changes i in
      let gain := if ngt change (lit 0) then change else lit 0 in
      let loss := if nlt change (lit 0) then Math_abs change else lit 0 in
      let avgGain := (avgGain * (of_nat period - lit 1) + gain) / of_nat period in
      let avgLoss := (avgLoss * (of_nat period - lit 1) + loss) / of_nat period in
      next ← elem data (i + 1)%nat;
      Ret (avgGain, avgLoss,
           result ++ [{| x := new_Date (timestamp next);
                         y := rsiValue avgGain avgLoss |}]))
    (avgGain, avgLoss, result);
  Ret result.

(** The loop the effect writes twice, with [period] 20 (from index 19) and
    with [period] 50 (from index 49).  Indices are natural numbers: [i - j]
    never goes below zero here, since [j < period ≤ i + 1]. *)
Definition smaLoop (period : nat) (marketData : list KlineData) : js (list Point) :=
  for_loop (period - 1) (length marketData) (λ i sma,
      sum ← for_loop 0 period (λ j sum,
          c ← elem marketData (i - j)%nat;
          Ret (sum + Fin (close c))) (lit 0);
      c ← elem marketData i;
      Ret (sma ++ [{| x := new_Date (timestamp c); y := sum / of_nat period |}]))
    [].

Definition sma20 : list KlineData → js (list Point) := smaLoop 20.
Definition sma50 : list KlineData → js (list Point) := smaLoop 50.

End Chart.

(** ** The indicators as the specification words them

    Second definitions, over plain lists of closes, of what the
    specification calls SMA(period) and Wilder's RSI(period).  The
    theorems below compare them with the loops of the source. *)

Module Spec.

Local Open Scope Qc_scope.

Definition Qcmax (a b : Qc) : Qc := if decide (a ≤ b) then b else a.

Definition Qc_of_nat (n : nat) : Qc := Qc_of_Z (Z.of_nat n).

Definition sum (l : list Qc) : Qc := foldr Qcplus 0 l.

(** Arithmetic mean. *)
Definition mean (l : list Qc) : Qc := sum l / Qc_of_nat (length l).

(** The [period] values at indices [i - period + 1] through [i]. *)
Definition window {A} (period i : nat) (l : list A) : list A :=
  take period (drop (i + 1 - period) l).

(** SMA(period) at index [i]. *)
Definition sma (period i : nat) (closes : list Qc) : Qc :=
  mean (window period i closes).

(** Price changes: the [k]-th is [close (k+1) - close k]. *)
Definition deltas (closes : list Qc) : list Qc :=
  zip_with (λ prev cur, cur - prev) closes (tail closes).

(** [gain = max(Δ,0)], [loss = max(-Δ,0)] *)
Definition gain (d : Qc) : Qc := Qcmax d 0.
Definition loss (d : Qc) : Qc := Qcmax (- d) 0.

(** Wilder's recurrence [avg = (avg*(period-1) + v)/period]. *)
Definition smooth (period : nat) (avg v : Qc) : Qc :=
  (avg * (Qc_of_nat period - 1) + v) / Qc_of_nat period.

(** Seed phase: the means of the gains and of the losses over the first
    [period] changes. *)
Definition seed (period : nat) (ds : list Qc) : Qc * Qc :=
  (mean (gain <$> take period ds), mean (loss <$> take period ds)).

(** Steady state: the smoothed averages after each further change. *)
Fixpoint wilder_run (period : nat) (g l : Qc) (ds : list Qc) : list (Qc * Qc) :=
  match ds with
  | [] => []
  | d :: ds =>
      let g' := smooth period g (gain d) in
      let l' := smooth period l (loss d) in
      (g', l') :: wilder_run period g' l' ds
  end.

(** The averages behind the values emitted at indices [period],
    [period + 1], ... *)
Definition wilder (period : nat) (closes : list Qc) : list (Qc * Qc) :=
  let ds := deltas closes in
  let '(g, l) := seed period ds in
  (g, l) :: wilder_run period g l (drop period ds).

(** [RS = avgGain / avgLoss] with zero average loss replaced by the small
    constant, and [RSI = 100 − 100/(1+RS)]. *)
Definition rs (g l : Qc) : Qc := g / (if decide (l = 0) then milli else l).
Definition rsi (g l : Qc) : Qc := Qc_of_Z 100 - Qc_of_Z 100 / (1 + rs g l).

(** The point emitted for candle [c] from the averages [gl]. *)
Definition rsi_point (c : Chart.KlineData) (gl : Qc * Qc) : Chart.Point :=
  {| Chart.x := Chart.new_Date (Chart.timestamp c);
     Chart.y := Fin (rsi gl.1 gl.2) |}.

(** The RSI series: one point per candle from index [period] on. *)
Definition rsi_points (period : nat) (data : list Chart.KlineData)
    : list Chart.Point :=
  zip_with rsi_point (drop period data) (wilder period (Chart.close <$> data)).

(** The SMA series: one point per candle from index [period - 1] on. *)
Definition sma_points (period : nat) (data : list Chart.KlineData)
    : list Chart.Point :=
  imap (λ k c, {| Chart.x := Chart.new_Date (Chart.timestamp c);
                  Chart.y := Fin (sma period (period - 1 + k)
                                    (Chart.close <$> data)) |})
    (drop (period - 1) data).

(** A reading of "close to 100": at least 99. *)
Definition near_100 (v : num) : Prop := ∃ q, v = Fin q ∧ Qc_of_Z 99 ≤ q ≤ Qc_of_Z 100.

End Spec.

(** ** JavaScript values, as [JSON.parse] and [response.json()] deliver them *)

#[warnings="-register-all"] Inductive jsval : Type :=
  | JUndefined
  | JNull
  | JBool (b : bool)
  | JNum (n : num)
  | JStr (s : string)
  | JArr (items : list jsval)
  | JObj (fields : list (string * jsval)).

(** The own property [k] of an object; the first binding of a key counts. *)
Fixpoint field (fields : list (string * jsval)) (k : string) : jsval :=
  match fields with
  | [] => JUndefined
  | (k', v) :: fields => if decide (k' = k) then v else field fields k
  end.

(** [v.k], for the property names the source reads ([k], [t], [o], [h], [l],
    [c], [v], [x] and [length]): a [TypeError] on [undefined] and [null],
    the length of an array or a string, the field of an object,
    [undefined] otherwise. *)
Definition getProp (v : jsval) (k : string) : js jsval :=
  match v with
  | JUndefined | JNull => Throw TypeError
  | JObj fields => Ret (field fields k)
  | JArr items =>
      Ret (if decide (k = "length") then JNum (of_nat (length items)) else JUndefined)
  | JStr s =>
      Ret (if decide (k = "length") then JNum (of_nat (String.length s)) else JUndefined)
  | JBool _ | JNum _ => Ret JUndefined
  end.

(** Truthiness, as [if (v)], [!v] and [v && ...] test it. *)
Definition truthy (v : jsval) : bool :=
  match v with
  | JUndefined | JNull => false
  | JBool b => b
  | JNum n => negb (nstrict_eq n (lit 0) || bool_decide (n = NaN))
  | JStr s => negb (bool_decide (s = ""))
  | JArr _ | JObj _ => true
  end.

(** [v === n] for a number [n]. *)
Definition strict_eq_num (v : jsval) (n : num) : bool :=
  match v with
  | JNum m => nstrict_eq m n
  | _ => false
  end.

(** [o || d] for the result [o] of [searchParams.get]: [null] and the empty
    string give the default. *)
Definition or_default (o : option string) (d : string) : string :=
  match o with
  | Some s => if decide (s = "") then d else s
  | None => d
  end.

(** ** The Fetch API *)

(** A response: its status line, and what [text()] and [json()] resolve to. *)
Record Response : Type := {
  status : Z;
  statusText : string;
  text : js string;
  json : js jsval
}.

(** [response.ok]: the status is in the range 200-299. *)
Definition ok (r : Response) : bool :=
  bool_decide (200 ≤ status r ≤ 299)%Z.

(** ** The chart component: state, effect and handlers *)

Module Component.
Import Chart.

(** The pieces of [useState] the effect and the handler write. *)
Record State : Type := {
  currentPrice : option num;
  candlestickData : list OhlcPoint;
  volumeData : list VolumePoint;
  rsiData : list Point;
  sma20Data : list Point;
  sma50Data : list Point
}.

Definition init : State :=
  {| currentPrice := None; candlestickData := []; volumeData := [];
     rsiData := []; sma20Data := []; sma50Data := [] |}.

Definition setCurrentPrice (p : num) (st : State) : State :=
  {| currentPrice := Some p; candlestickData := candlestickData st;
     volumeData := volumeData st; rsiData := rsiData st;
     sma20Data := sma20Data st; sma50Data := sma50Data st |}.

(** The three published indicator series. *)
Definition indicators (st : State) : list Point * list Point * list Point :=
  (rsiData st, sma20Data st, sma50Data st).

(** What a handler asks of the query client. *)
Inductive effect : Type := Refetch.

(** The effect "Process market data for charts"; [None] is the
    [undefined] of a query without data. *)
Definition processMarketData (marketData : option (list KlineData))
    (st : State) : js State :=
  match marketData with
  | None => Ret st
  | Some marketData =>
      let ohlc := (λ candle,
        {| ohlc_x := new_Date (timestamp candle);
           ohlc_y := [open candle; high candle; low candle; close candle] |})
        <$> marketData in
      let volume := (λ candle,
        {| vol_x := new_Date (timestamp candle);
           vol_y := Chart.volume candle;
           fillColor := if nge (Fin (close candle)) (Fin (open candle))
                        then "#26a69a" else "#ef5350" |})
        <$> marketData in
      sma20 ← sma20 marketData;
      sma50 ← sma50 marketData;
      rsi ← calculateRSI marketData 14;
      let st := {| currentPrice := currentPrice st; candlestickData := ohlc;
                   volumeData := volume; rsiData := rsi;
                   sma20Data := sma20; sma50Data := sma50 |} in
      if decide (0 < length marketData)%nat then
        last ← elem marketData (length marketData - 1)%nat;
        Ret (setCurrentPrice (Fin (close last)) st)
      else Ret st
  end.

(** The template literal [`/api/market?symbol=${symbol}&interval=${interval}`]. *)
Definition market_url (symbol interval : string) : string :=
  "/api/market?symbol=" +:+ symbol +:+ "&interval=" +:+ interval.

Section handlers.

(** [JSON.parse] and [parseFloat] of the platform, and its [fetch]. *)
Variable JSON_parse : string → js jsval.
Variable parseFloat : jsval → num.
Variable fetch : string → js Response.

(** [ws.onmessage].  [captured] is the [candlestickData] of the render in
    which the socket effect ran, which the closure reads.  The locals
    [timestamp], [openPrice], [highPrice], [lowPrice] and [volume] are
    computed and never used; nothing can throw once [setCurrentPrice] has
    been called, so a caught exception leaves the state as it was. *)
Definition onmessage (captured : list OhlcPoint) (event_data : string)
    (st : State) : State * list effect :=
  let handler : js (State * list effect) :=
    message ← JSON_parse event_data;
    k ← getProp message "k";
    if truthy k then
      t ← getProp k "t";
      o ← getProp k "o";
      h ← getProp k "h";
      l ← getProp k "l";
      c ← getProp k "c";
      v ← getProp k "v";
      x ← getProp k "x";
      let closePrice := parseFloat c in
      let st := setCurrentPrice closePrice st in
      if truthy x && bool_decide (0 < length captured)%nat
      then Ret (st, [Refetch])
      else Ret (st, [])
    else Ret (st, [])
  in
  match handler with
  | Ret r => r
  | Throw _ => (st, [])
  end.

(** [fetchMarketData(symbol, interval)]; the [catch] logs and rethrows. *)
Definition fetchMarketData (symbol interval : string) : js jsval :=
  try_catch
    (response ← fetch (market_url symbol interval);
     if negb (ok response) then
       errorText ← text response;
       Throw (Error ("Failed to fetch market data: "
                     +:+ pretty (status response) +:+ " "
                     +:+ statusText response))
     else
       data ← json response;
       len ← getProp data "length";
       if negb (truthy data) || strict_eq_num len (lit 0)
       then Throw (Error "No data received from API")
       else Ret data)
    (λ error, Throw error).

(** What happens to the component: the query delivers data (or has none),
    or the socket delivers a message to a handler with some captured
    [candlestickData]. *)
Inductive event : Type :=
  | MarketData (marketData : option (list KlineData))
  | Message (captured : list OhlcPoint) (event_data : string).

Definition step (st : State) (ev : event) : State :=
  match ev with
  | MarketData marketData =>
      match processMarketData marketData st with
      | Ret st' => st'
      | Throw _ => st
      end
  | Message captured event_data => (onmessage captured event_data st).1
  end.

Definition run (evs : list event) : State := foldl step init evs.

(** The price an event publishes, if it publishes one. *)
Definition event_price (ev : event) : option num :=
  match ev with
  | MarketData (Some marketData) => (λ c, Fin (close c)) <$> last marketData
  | MarketData None => None
  | Message _ event_data =>
      match (message ← JSON_parse event_data; k ← getProp message "k";
             if truthy k then c ← getProp k "c"; Ret (Some (parseFloat c))
             else Ret None) with
      | Ret p => p
      | Throw _ => None
      end
  end.

(** The indicators of the latest batch a trace has delivered. *)
Definition last_batch (evs : list event) : option (list KlineData) :=
  foldl (λ acc ev, match ev with MarketData (Some d) => Some d | _ => acc end)
    None evs.

(** The price of the latest event of a trace that publishes one. *)
Definition last_price (evs : list event) : option num :=
  foldl (λ acc ev, match event_price ev with Some p => Some p | None => acc end)
    None evs.

End handlers.
End Component.

(** ** The market-data route *)

Module Route.

(** [interface KlineData] of the route: the fields hold whatever [Number]
    and [parseFloat] return, NaN included. *)
Record KlineData : Type := {
  timestamp : num;
  open : num;
  high : num;
  low : num;
  close : num;
  volume : num
}.

(** [NextResponse.json(body, { status })]; the status defaults to 200. *)
Record NextResponse : Type := { nr_status : Z; nr_body : list KlineData }.

(** [NextResponse.json([], { status: 500 })] *)
Definition failure : NextResponse := {| nr_status := 500; nr_body := [] |}.

(** The template literal of the upstream request. *)
Definition klines_url (symbol interval limit : string) : string :=
  "https://api.binance.com/api/v3/klines?symbol=" +:+ symbol
  +:+ "&interval=" +:+ interval +:+ "&limit=" +:+ limit.

Section GET.

Variable fetch : string → js Response.
Variable Number : jsval → num.
Variable parseFloat : jsval → num.

(** The values an array destructuring pattern draws from [v]: the items of
    an array, the one-character strings of a string; anything else is not
    iterable. *)
Definition iterate (v : jsval) : js (list jsval) :=
  match v with
  | JArr items => Ret items
  | JStr s => Ret ((λ a, JStr (String a EmptyString)) <$> String.list_ascii_of_string s)
  | _ => Throw TypeError
  end.

(** The [i]-th binding of the pattern; [undefined] when the values run out. *)
Definition item (items : list jsval) (i : nat) : jsval :=
  default JUndefined (items !! i).

(** The arrow function given to [data.map]. *)
Definition formatRow (row : jsval) : js KlineData :=
  items ← iterate row;
  Ret {| timestamp := Number (item items 0);
         open := parseFloat (item items 1);
         high := parseFloat (item items 2);
         low := parseFloat (item items 3);
         close := parseFloat (item items 4);
         volume := parseFloat (item items 5) |}.

(** [data.map(f)]: only an array has a callable [map]. *)
Definition array_map {B} (f : jsval → js B) (data : jsval) : js (list B) :=
  match data with
  | JArr items => mapM f items
  | _ => Throw TypeError
  end.

(** [GET(request)], from the three query parameters of the request. *)
Definition GET (symbol interval limit : option string) : js NextResponse :=
  let symbol := or_default symbol "BTCUSDT" in
  let interval := or_default interval "1m" in
  let limit := or_default limit "500" in
  try_catch
    (response ← fetch (klines_url symbol interval limit);
     if negb (ok response) then
       Throw (Error ("API responded with status: " +:+ pretty (status response)))
     else
       data ← json response;
       formattedData ← array_map formatRow data;
       Ret {| nr_status := 200; nr_body := formattedData |})
    (λ error, Ret failure).

End GET.
End Route.

(** ** Sample inputs *)

Module Sample.

(** A candle at time [t] whose four prices are all [c]. *)
Definition candle (t : Z) (c : Qc) : Chart.KlineData :=
  {| Chart.timestamp := Qc_of_Z t; Chart.open := c; Chart.high := c;
     Chart.low := c; Chart.close := c; Chart.volume := 1%Qc |}.

(** [n] candles whose closes start at [c0] and rise by [d] each. *)
Definition ramp (c0 d : Qc) (n : nat) : list Chart.KlineData :=
  (λ i, candle (Z.of_nat i) (c0 + Qc_of_Z (Z.of_nat i) * d)%Qc) <$> seq 0 n.

(** Closes 10, 11, ..., 29. *)
Definition closes_10_29 : list Chart.KlineData :=
  ramp (Qc_of_Z 10) 1%Qc 20.

(** A kline message as [JSON.parse] delivers it, with close [c], still open. *)
Definition kline_message (c : string) : jsval :=
  JObj [("k", JObj [("t", JNum (lit 0)); ("o", JStr c); ("h", JStr c);
                    ("l", JStr c); ("c", JStr c); ("v", JStr c);
                    ("x", JBool false)])].

(** An upstream body of one row. *)
Definition one_row : jsval :=
  JArr [JArr [JNum (lit 0); JStr "1"; JStr "1"; JStr "1"; JStr "1"; JStr "1"]].

Definition response_200 (body : jsval) : Response :=
  {| status := 200; statusText := "OK"; text := Ret "body"; json := Ret body |}.

Definition response_500 : Response :=
  {| status := 500; statusText := "Internal Server Error";
     text := Ret "[]"; json := Ret (JArr []) |}.

End Sample.

(** ** From the route to the component *)

Module Wire.

(** [JSON.stringify] of a number, read back by [response.json()]: NaN and
    the infinities are written as [null]. *)
Definition number_over_wire (n : num) : jsval :=
  match n with
  | Fin q => JNum (Fin q)
  | _ => JNull
  end.

(** A record of the route as the component's [response.json()] sees it. *)
Definition record_over_wire (k : Route.KlineData) : jsval :=
  JObj [("timestamp", number_over_wire (Route.timestamp k));
        ("open", number_over_wire (Route.open k));
        ("high", number_over_wire (Route.high k));
        ("low", number_over_wire (Route.low k));
        ("close", number_over_wire (Route.close k));
        ("volume", number_over_wire (Route.volume k))].

(** The response the component's [fetch] resolves to when the route
    answered [r]; the status text and the raw text are the transport's. *)
Definition deliver (statusText body_text : string) (r : Route.NextResponse)
    : Response :=
  {| status := Route.nr_status r;
     statusText := statusText;
     text := Ret body_text;
     json := Ret (JArr (record_over_wire <$> Route.nr_body r)) |}.

Section through_route.

Variable upstream : string → js Response.
Variable Number : jsval → num.
Variable parseFloat : jsval → num.
Variable statusText : Z → string.
Variable body_text : Route.NextResponse → string.

(** The component's [fetch] of [/api/market?symbol=..&interval=..], served
    by the route: the request carries [symbol] and [interval] and no
    [limit] (for values without reserved characters, as the two selects
    offer them). *)
Definition route_fetch (symbol interval : string) (url : string) : js Response :=
  r ← Route.GET upstream Number parseFloat (Some symbol) (Some interval) None;
  Ret (deliver (statusText (Route.nr_status r)) (body_text r) r).

(** [fetchMarketData] against the route. *)
Definition fetch_through_route (symbol interval : string) : js jsval :=
  Component.fetchMarketData (route_fetch symbol interval) symbol interval.

End through_route.
End Wire.

(** ** The socket effect and its life cycle *)

Module Socket.

(** The [useState] pieces the socket effect reads and writes.  A socket
    is named by the order of its creation. *)
Record Conn : Type := {
  isConnected : bool;
  wsRef : option nat;
  selectedSymbol : string;
  selectedInterval : string
}.

(** Where the component is in its life; while mounted, the [wsRef] that
    the clean-up function of the latest effect run has captured. *)
Inductive phase : Type :=
  | NotMounted
  | Mounted (captured : option nat)
  | Unmounted.

(** The component and the sockets around it: how many were created, and
    on which [close()] has been called. *)
Record World : Type := {
  conn : Conn;
  sockets : nat;
  closed : list nat;
  life : phase
}.

(** The initial values of the four [useState] calls. *)
Definition fresh : Conn :=
  {| isConnected := false; wsRef := None;
     selectedSymbol := "BTCUSDT"; selectedInterval := "1m" |}.

Definition start : World :=
  {| conn := fresh; sockets := 0; closed := []; life := NotMounted |}.

Definition setIsConnected (b : bool) (w : World) : World :=
  {| conn := {| isConnected := b; wsRef := wsRef (conn w);
                selectedSymbol := selectedSymbol (conn w);
                selectedInterval := selectedInterval (conn w) |};
     sockets := sockets w; closed := closed w; life := life w |}.

Definition setWsRef (r : option nat) (w : World) : World :=
  {| conn := {| isConnected := isConnected (conn w); wsRef := r;
                selectedSymbol := selectedSymbol (conn w);
                selectedInterval := selectedInterval (conn w) |};
     sockets := sockets w; closed := closed w; life := life w |}.

Definition setSelectedSymbol (v : string) (w : World) : World :=
  {| conn := {| isConnected := isConnected (conn w); wsRef := wsRef (conn w);
                selectedSymbol := v;
                selectedInterval := selectedInterval (conn w) |};
     sockets := sockets w; closed := closed w; life := life w |}.

Definition setSelectedInterval (v : string) (w : World) : World :=
  {| conn := {| isConnected := isConnected (conn w); wsRef := wsRef (conn w);
                selectedSymbol := selectedSymbol (conn w);
                selectedInterval := v |};
     sockets := sockets w; closed := closed w; life := life w |}.

Definition setLife (p : phase) (w : World) : World :=
  {| conn := conn w; sockets := sockets w; closed := closed w; life := p |}.

(** [ws.close()] *)
Definition close (ws : nat) (w : World) : World :=
  {| conn := conn w; sockets := sockets w; closed := closed w ++ [ws];
     life := life w |}.

(** The block [if (wsRef) { wsRef.close(); setIsConnected(false);
    setWsRef(null); }], which opens the effect and is the whole of its
    clean-up function; [wsRef] is the value the closure captured. *)
Definition teardown (captured : option nat) (w : World) : World :=
  match captured with
  | Some ws => setWsRef None (setIsConnected false (close ws w))
  | None => w
  end.

Section effect.

(** [new WebSocket(url)], which may throw, and [String.toLowerCase]. *)
Variable WebSocket : string → js unit.
Variable toLowerCase : string → string.

(** The template literal of the stream address. *)
Definition wsUrl (symbol interval : string) : string :=
  "wss://stream.binance.com:9443/ws/" +:+ toLowerCase symbol
  +:+ "@kline_" +:+ interval.

(** The body of the effect "Connect to WebSocket", run in a render whose
    [wsRef] is [captured]; the selection is the one of that render. *)
Definition connect (captured : option nat) (w : World) : World :=
  let w := teardown captured w in
  match WebSocket (wsUrl (selectedSymbol (conn w)) (selectedInterval (conn w))) with
  | Ret _ =>
      let ws := sockets w in
      setWsRef (Some ws)
        {| conn := conn w; sockets := S (sockets w); closed := closed w;
           life := life w |}
  | Throw _ => setIsConnected false w
  end.

(** What happens to the component.  The effect runs when the component
    mounts and again whenever [selectedSymbol] or [selectedInterval]
    changes ([refetch] keeps its identity): first the clean-up function of
    the previous run, then the body, both with the [wsRef] of the render
    they were created in.  Unmounting runs the last clean-up function; a
    state setter called after that does nothing. *)
Inductive event : Type :=
  | Mount
  | SymbolChange (value : string)
  | IntervalChange (value : string)
  | Unmount
  | SockOpen (ws : nat)
  | SockClose (ws : nat)
  | SockError (ws : nat).

(** A render with a new selection: clean-up of the previous run, then the
    effect, which captures the [wsRef] the render saw. *)
Definition rerun (previous : option nat) (seen : option nat) (w : World) : World :=
  setLife (Mounted seen) (connect seen (teardown previous w)).

Definition step (w : World) (ev : event) : World :=
  match life w, ev with
  | NotMounted, Mount => setLife (Mounted (wsRef (conn w))) (connect (wsRef (conn w)) w)
  | Mounted previous, SymbolChange value =>
      (* handleSymbolChange *)
      if decide (value = selectedSymbol (conn w)) then w
      else rerun previous (wsRef (conn w)) (setSelectedSymbol value w)
  | Mounted previous, IntervalChange value =>
      (* handleIntervalChange *)
      if decide (value = selectedInterval (conn w)) then w
      else rerun previous (wsRef (conn w)) (setSelectedInterval value w)
  | Mounted previous, Unmount => setLife Unmounted (teardown previous w)
  | Mounted _, SockOpen _ => setIsConnected true w      (* ws.onopen *)
  | Mounted _, SockClose _ => setIsConnected false w    (* ws.onclose *)
  | Mounted _, SockError _ => setIsConnected false w    (* ws.onerror *)
  | _, _ => w
  end.

Definition run (evs : list event) : World := foldl step start evs.

End effect.

(** What the proofs below show of every world the component reaches:
    [close()] is called on existing sockets only, the socket in [wsRef]
    exists and is not closed, the socket the pending clean-up has
    captured is closed already, and while the component is alive every
    other socket is closed. *)
Record inv (w : World) : Prop := {
  inv_closed : ∀ s, s ∈ closed w → (s < sockets w)%nat;
  inv_current : ∀ s, wsRef (conn w) = Some s → (s < sockets w)%nat ∧ s ∉ closed w;
  inv_captured : ∀ s, life w = Mounted (Some s) → s ∈ closed w;
  inv_others : life w ≠ Unmounted →
    ∀ s, (s < sockets w)%nat → s ∈ closed w ∨ wsRef (conn w) = Some s;
  inv_before : life w = NotMounted → wsRef (conn w) = None ∧ sockets w = 0%nat
}.

(** The sockets on which [close()] was never called. *)
Definition open_sockets (w : World) : list nat :=
  filter (λ ws, ws ∉ closed w) (seq 0 (sockets w)).

End Socket.

(** ** More sample inputs *)

Module Sample2.

(** The candle [c] with its open, high, low and volume replaced. *)
Definition repriced (c : Chart.KlineData) : Chart.KlineData :=
  {| Chart.timestamp := Chart.timestamp c; Chart.open := 0%Qc;
     Chart.high := (Chart.close c + 1)%Qc; Chart.low := 0%Qc;
     Chart.close := Chart.close c; Chart.volume := Qc_of_Z 7 |}.

(** The candle [c] with its close raised by [s]. *)
Definition raised (s : Qc) (c : Chart.KlineData) : Chart.KlineData :=
  {| Chart.timestamp := Chart.timestamp c; Chart.open := Chart.open c;
     Chart.high := Chart.high c; Chart.low := Chart.low c;
     Chart.close := (Chart.close c + s)%Qc; Chart.volume := Chart.volume c |}.

(** A kline message marked closed. *)
Definition closed_kline_message : jsval :=
  JObj [("k", JObj [("t", JNum (lit 0)); ("o", JStr "1"); ("h", JStr "1");
                    ("l", JStr "1"); ("c", JStr "1"); ("v", JStr "1");
                    ("x", JBool true)])].

Definition one_candle_chart : list Chart.OhlcPoint :=
  [{| Chart.ohlc_x := Chart.new_Date 0%Qc; Chart.ohlc_y := [1; 1; 1; 1]%Qc |}].

Definition null_body : Response :=
  {| status := 200; statusText := "OK"; text := Ret "null"; json := Ret JNull |}.

End Sample2.

(** * Properties of the numbers *)

Section numbers.
Local Open Scope Qc_scope.
Import Spec.

Lemma lit_0 : lit 0 = Fin 0.
Proof. unfold lit. by rewrite Z2Qc_inj_0. Qed.

Lemma lit_1 : lit 1 = Fin 1.
Proof. unfold lit. by rewrite Z2Qc_inj_1. Qed.

Lemma Qc_of_nat_pos (n : nat) : (0 < n)%nat → 0 < Qc_of_nat n.
Proof.
  intros Hn. unfold Qc_of_nat. rewrite <- Z2Qc_inj_0.
  apply (proj1 (Z2Qc_inj_lt 0 (Z.of_nat n))). lia.
Qed.

Lemma Qc_of_nat_ne0 (n : nat) : (0 < n)%nat → Qc_of_nat n ≠ 0.
Proof. intros Hn Heq. apply Qc_of_nat_pos in Hn. rewrite Heq in Hn. by apply Qclt_not_eq in Hn. Qed.

Lemma milli_pos : 0 < milli.
Proof. reflexivity. Qed.

Lemma hundred_pos : 0 < Qc_of_Z 100.
Proof. reflexivity. Qed.

Lemma ndiv_fin (p q : Qc) : q ≠ 0 → (Fin p / Fin q)%num = Fin (p / q).
Proof. intros Hq. unfold ndiv. by rewrite decide_False. Qed.

Lemma Qcdiv_nonneg (p q : Qc) : 0 ≤ p → 0 < q → 0 ≤ p / q.
Proof.
  intros Hp Hq. unfold Qcdiv. apply Qcmult_nonneg_nonneg; [done|].
  apply Qclt_le_weak. by apply Qcinv_pos.
Qed.

Lemma Qcdiv_pos (p q : Qc) : 0 < p → 0 < q → 0 < p / q.
Proof. intros Hp Hq. unfold Qcdiv. apply Qcmult_pos_pos; [done|]. by apply Qcinv_pos. Qed.

Lemma Qcmax_nonneg_r (a : Qc) : 0 ≤ Qcmax a 0.
Proof.
  unfold Qcmax. case_decide as H; [done|].
  apply Qclt_le_weak. by apply Qcnot_le_lt.
Qed.

Lemma gain_nonneg d : 0 ≤ gain d.
Proof. apply Qcmax_nonneg_r. Qed.

Lemma loss_nonneg d : 0 ≤ loss d.
Proof. apply Qcmax_nonneg_r. Qed.

Lemma gain_pos d : 0 < d → gain d = d ∧ loss d = 0.
Proof.
  intros Hd. unfold gain, loss, Qcmax. split.
  - rewrite decide_False; [done|]. by apply Qclt_not_le.
  - rewrite decide_True; [done|].
    apply Qclt_le_weak in Hd. apply Qcopp_le_compat in Hd. exact Hd.
Qed.

Lemma gain_nonpos d : ¬ 0 < d → gain d = 0 ∧ loss d = Qcabs.Qcabs d.
Proof.
  intros Hd. apply Qcnot_lt_le in Hd. unfold gain, loss, Qcmax. split.
  - by rewrite decide_True.
  - rewrite (Qcabs.Qcabs_neg d Hd). case_decide as H; [|done].
    apply Qcopp_le_compat in Hd.
    apply (anti_symm Qcle); [exact Hd | exact H].
Qed.

Lemma loss_neg d : d < 0 → loss d = Qcabs.Qcabs d.
Proof. intros Hd. apply gain_nonpos. apply Qcle_not_lt. by apply Qclt_le_weak. Qed.

Lemma loss_nonneg_arg d : ¬ d < 0 → loss d = 0.
Proof.
  intros Hd. apply Qcnot_lt_le in Hd. unfold loss, Qcmax.
  rewrite decide_True; [done|]. apply Qcopp_le_compat in Hd. exact Hd.
Qed.

Lemma sum_nonneg (l : list Qc) : Forall (λ q, 0 ≤ q) l → 0 ≤ sum l.
Proof.
  induction 1 as [|q l Hq _ IH]; simpl; [done|].
  by apply Qcplus_nonneg_nonneg.
Qed.

Lemma mean_nonneg (l : list Qc) : Forall (λ q, 0 ≤ q) l → 0 ≤ mean l.
Proof.
  intros Hl. unfold mean. destruct l as [|q l]; [done|].
  apply Qcdiv_nonneg; [by apply sum_nonneg|]. apply Qc_of_nat_pos. simpl. lia.
Qed.

Lemma smooth_nonneg period avg v :
  (0 < period)%nat → 0 ≤ avg → 0 ≤ v → 0 ≤ smooth period avg v.
Proof.
  intros Hp Ha Hv. unfold smooth. apply Qcdiv_nonneg; [|by apply Qc_of_nat_pos].
  apply Qcplus_nonneg_nonneg; [|done]. apply Qcmult_nonneg_nonneg; [done|].
  unfold Qc_of_nat. rewrite <- Z2Qc_inj_1, <- Z2Qc_inj_sub, <- Z2Qc_inj_0.
  apply (proj1 (Z2Qc_inj_le 0 (Z.of_nat period - 1))). lia.
Qed.

Lemma rs_divisor_pos l : 0 ≤ l → 0 < (if decide (l = 0) then milli else l).
Proof.
  intros Hl. case_decide as H; [apply milli_pos|].
  destruct (Qcle_lt_or_eq _ _ Hl) as [?|?]; [done|congruence].
Qed.

Lemma rs_nonneg g l : 0 ≤ g → 0 ≤ l → 0 ≤ rs g l.
Proof. intros Hg Hl. apply Qcdiv_nonneg; [done|]. by apply rs_divisor_pos. Qed.

(** The formula stays within bounds on non-negative averages. *)
Lemma rsi_bounds g l : 0 ≤ g → 0 ≤ l → 0 ≤ rsi g l < Qc_of_Z 100.
Proof.
  intros Hg Hl. pose proof (rs_nonneg g l Hg Hl) as Hrs.
  unfold rsi. set (r := rs g l) in *. set (h := Qc_of_Z 100).
  assert (Hh : 0 < h) by apply hundred_pos.
  assert (H1 : 0 < 1 + r) by (by apply Qcplus_pos_nonneg).
  assert (Hne : 1 + r ≠ 0) by (intros E; rewrite E in H1; by apply Qclt_not_eq in H1).
  split.
  - replace (h - h / (1 + r)) with (h * r / (1 + r)) by (by field).
    apply Qcdiv_nonneg; [|done]. apply Qcmult_nonneg_nonneg; [|done].
    by apply Qclt_le_weak.
  - apply Qclt_minus_iff.
    replace (h + - (h - h / (1 + r))) with (h / (1 + r)) by (by field).
    by apply Qcdiv_pos.
Qed.

(** On finite non-negative averages the two lines of the source compute
    exactly the formula. *)
Lemma rsiValue_fin g l :
  0 ≤ g → 0 ≤ l → Chart.rsiValue (Fin g) (Fin l) = Fin (rsi g l).
Proof.
  intros Hg Hl. unfold Chart.rsiValue, rsi, rs.
  pose proof (rs_divisor_pos l Hl) as Hd.
  pose proof (rs_nonneg g l Hg Hl) as Hrs. unfold rs in Hrs.
  assert (Hsel : (if nstrict_eq (Fin l) (lit 0) then Fin milli else Fin l)
                 = Fin (if decide (l = 0) then milli else l)).
  { rewrite lit_0. unfold nstrict_eq. case_decide as H.
    - subst l. by rewrite bool_decide_eq_true_2.
    - rewrite bool_decide_eq_false_2; [done|]. intros [=]. done. }
  rewrite Hsel. set (d := if decide (l = 0) then milli else l) in *.
  rewrite (ndiv_fin g d); [|intros E; rewrite E in Hd; by apply Qclt_not_eq in Hd].
  rewrite lit_1. simpl nadd. unfold lit.
  rewrite ndiv_fin; [done|].
  intros E. assert (0 < 1 + g / d) as H1 by (by apply Qcplus_pos_nonneg).
  rewrite E in H1. by apply Qclt_not_eq in H1.
Qed.

End numbers.

(** * Properties of the loops *)

Section loops.

Lemma elem_Some {A} (a : list A) (i : nat) (v : A) :
  a !! i = Some v → elem a i = Ret v.
Proof. intros H. unfold elem. by rewrite H. Qed.

Lemma bind_Ret {A B} (a : A) (k : A → js B) : (Ret a ≫= k) = k a.
Proof. reflexivity. Qed.

Lemma for_range_app {S} (body : nat → S → js S) (idx1 idx2 : list nat) (s : S) :
  for_range body (idx1 ++ idx2) s
  = (s' ← for_range body idx1 s; for_range body idx2 s').
Proof.
  revert s. induction idx1 as [|i idx1 IH]; intros s; simpl; [done|].
  destruct (body i s) as [s'|e]; simpl; [apply IH|done].
Qed.

(** A loop whose body only pushes one value computed from the index. *)
Lemma for_range_push {A} (f : nat → A) (body : nat → list A → js (list A))
    (idx : list nat) (acc : list A) :
  (∀ i acc', i ∈ idx → body i acc' = Ret (acc' ++ [f i])) →
  for_range body idx acc = Ret (acc ++ (f <$> idx)).
Proof.
  revert acc. induction idx as [|i idx IH]; intros acc Hbody; simpl.
  - by rewrite app_nil_r.
  - rewrite Hbody by left. simpl. rewrite IH.
    + by rewrite <- app_assoc.
    + intros j acc' Hj. apply Hbody. by right.
Qed.

End loops.

(** Run a bind whose left side has returned. *)
Ltac js_step := rewrite bind_Ret; cbv beta iota.

(** Use an equation on the left side of the bind at the head of the goal,
    up to conversion. *)
Ltac js_rewrite H :=
  match type of H with
  | ?lhs = _ =>
      match goal with
      | |- (_ ≫= ?k) = ?r => change ((lhs ≫= k) = r); rewrite H
      end
  end.

(** * The price changes *)

Section changes.
Local Open Scope Qc_scope.
Import Spec.

Lemma length_deltas (closes : list Qc) :
  length (deltas closes) = (length closes - 1)%nat.
Proof.
  unfold deltas. rewrite length_zip_with.
  destruct closes as [|q l]; [done|]. cbn [tail length]. lia.
Qed.

Lemma lookup_deltas (closes : list Qc) (i : nat) (p c : Qc) :
  closes !! i = Some p → closes !! S i = Some c →
  deltas closes !! i = Some (c - p).
Proof.
  intros Hp Hc. unfold deltas. rewrite lookup_zip_with, Hp. simpl.
  by rewrite lookup_tail, Hc.
Qed.

(** The first loop of [calculateRSI] builds the list of price changes. *)
Lemma changes_loop (data : list Chart.KlineData) :
  for_loop 1 (length data) (λ i changes,
      cur ← elem data i;
      prev ← elem data (i - 1)%nat;
      Ret (changes ++ [Fin (Chart.close cur) - Fin (Chart.close prev)]%num)) []
  = Ret (Fin <$> deltas (Chart.close <$> data)).
Proof.
  unfold for_loop.
  set (closeAt := λ i, default 0 (Chart.close <$> data !! i)).
  rewrite (for_range_push (λ i, Fin (closeAt i - closeAt (i - 1)%nat))).
  - f_equal. simpl. apply list_eq. intros k.
    rewrite !list_lookup_fmap.
    destruct (decide (k < length data - 1)%nat) as [Hk|Hk].
    + rewrite lookup_seq_lt by done. simpl.
      destruct (lookup_lt_is_Some_2 data k) as [p Hp]; [lia|].
      destruct (lookup_lt_is_Some_2 data (S k)) as [c Hc]; [lia|].
      rewrite (lookup_deltas _ k (Chart.close p) (Chart.close c)).
      * simpl. unfold closeAt. rewrite Nat.sub_0_r. by rewrite Hp, Hc.
      * by rewrite list_lookup_fmap, Hp.
      * by rewrite list_lookup_fmap, Hc.
    + rewrite lookup_seq_ge by lia. simpl.
      rewrite lookup_ge_None_2; [done|].
      rewrite length_deltas, length_fmap. lia.
  - intros i acc Hi. apply elem_of_seq in Hi.
    destruct (lookup_lt_is_Some_2 data i) as [c Hc]; [lia|].
    destruct (lookup_lt_is_Some_2 data (i - 1)) as [p Hp]; [lia|].
    rewrite (elem_Some _ _ _ Hc). simpl. rewrite (elem_Some _ _ _ Hp). simpl.
    unfold closeAt. by rewrite Hc, Hp.
Qed.

End changes.

(** * Wilder's smoothing in [calculateRSI] *)

Section rsi.
Local Open Scope Qc_scope.
Import Spec.

Lemma numAt_fin (ds : list Qc) (i : nat) (d : Qc) :
  ds !! i = Some d → numAt (Fin <$> ds) i = Fin d.
Proof. intros H. unfold numAt. by rewrite list_lookup_fmap, H. Qed.

Lemma of_nat_fin (n : nat) : of_nat n = Fin (Qc_of_nat n).
Proof. reflexivity. Qed.

Lemma ngt_fin_0 (d : Qc) : ngt (Fin d) (lit 0) = bool_decide (0 < d).
Proof. by rewrite lit_0. Qed.

Lemma nlt_fin_0 (d : Qc) : nlt (Fin d) (lit 0) = bool_decide (d < 0).
Proof. by rewrite lit_0. Qed.

(** The seed loop adds up the gains and the losses of the window. *)
Lemma seed_loop (ds : list Qc) (body : nat → num * num → js (num * num)) :
  (∀ i avgGain avgLoss, body i (avgGain, avgLoss) =
      if ngt (numAt (Fin <$> ds) i) (lit 0)
      then Ret (avgGain + numAt (Fin <$> ds) i, avgLoss)%num
      else Ret (avgGain, avgLoss + Math_abs (numAt (Fin <$> ds) i))%num) →
  ∀ (k a : nat) (g l : Qc), (a + k ≤ length ds)%nat →
  for_range body (seq a k) (Fin g, Fin l)
  = Ret (Fin (g + sum (gain <$> take k (drop a ds))),
         Fin (l + sum (loss <$> take k (drop a ds)))).
Proof.
  intros Hbody. induction k as [|k IH]; intros a g l Hak.
  - simpl. by rewrite !Qcplus_0_r.
  - destruct (lookup_lt_is_Some_2 ds a) as [d Hd]; [lia|].
    rewrite (drop_S _ _ _ Hd). cbn [seq for_range take fmap list_fmap sum foldr].
    rewrite Hbody, (numAt_fin _ _ _ Hd), ngt_fin_0.
    case_bool_decide as Hpos.
    + destruct (gain_pos d Hpos) as [-> ->]. simpl.
      rewrite IH by lia. unfold sum. by rewrite Qcplus_0_l, Qcplus_assoc.
    + destruct (gain_nonpos d Hpos) as [-> ->]. simpl.
      rewrite IH by lia. unfold sum. by rewrite Qcplus_0_l, Qcplus_assoc.
Qed.

Lemma wilder_run_nonneg period g l ds :
  (0 < period)%nat → 0 ≤ g → 0 ≤ l →
  Forall (λ gl, 0 ≤ gl.1 ∧ 0 ≤ gl.2) (wilder_run period g l ds).
Proof.
  intros Hp. revert g l. induction ds as [|d ds IH]; intros g l Hg Hl; simpl.
  - constructor.
  - assert (0 ≤ smooth period g (gain d))
      by (apply smooth_nonneg; auto using gain_nonneg).
    assert (0 ≤ smooth period l (loss d))
      by (apply smooth_nonneg; auto using loss_nonneg).
    constructor; [done|]. by apply IH.
Qed.

Lemma gain_code (d : Qc) :
  (if bool_decide (0 < d) then Fin d else Fin 0) = Fin (gain d).
Proof.
  case_bool_decide as H.
  - by destruct (gain_pos d H) as [-> _].
  - by destruct (gain_nonpos d H) as [-> _].
Qed.

Lemma loss_code (d : Qc) :
  (if bool_decide (d < 0) then Math_abs (Fin d) else Fin 0) = Fin (loss d).
Proof.
  case_bool_decide as H.
  - by rewrite (loss_neg d H).
  - by rewrite (loss_nonneg_arg d H).
Qed.

(** One round of the steady-state loop on finite averages. *)
Lemma steady_step (period : nat) (g l d : Qc) :
  (0 < period)%nat →
  let change := Fin d in
  let gain' := if ngt change (lit 0) then change else lit 0 in
  let loss' := if nlt change (lit 0) then Math_abs change else lit 0 in
  ((Fin g * (of_nat period - lit 1) + gain') / of_nat period)%num
    = Fin (smooth period g (gain d)) ∧
  ((Fin l * (of_nat period - lit 1) + loss') / of_nat period)%num
    = Fin (smooth period l (loss d)).
Proof.
  intros Hp. cbv zeta. rewrite ngt_fin_0, nlt_fin_0, lit_0, lit_1, of_nat_fin.
  rewrite gain_code, loss_code. cbn [nsub nneg nadd nmul].
  rewrite !ndiv_fin by (by apply Qc_of_nat_ne0). done.
Qed.

(** The steady-state loop pushes one point per remaining change. *)
Lemma steady_loop (period : nat) (data : list Chart.KlineData) (ds : list Qc)
    (body : nat → num * num * list Chart.Point
            → js (num * num * list Chart.Point)) :
  (∀ i avgGain avgLoss result, body i (avgGain, avgLoss, result) =
      let change := numAt (Fin <$> ds) i in
      let gain := if ngt change (lit 0) then change else lit 0 in
      let loss := if nlt change (lit 0) then Math_abs change else lit 0 in
      let avgGain := ((avgGain * (of_nat period - lit 1) + gain) / of_nat period)%num in
      let avgLoss := ((avgLoss * (of_nat period - lit 1) + loss) / of_nat period)%num in
      next ← elem data (i + 1)%nat;
      Ret (avgGain, avgLoss,
           result ++ [{| Chart.x := Chart.new_Date (Chart.timestamp next);
                         Chart.y := Chart.rsiValue avgGain avgLoss |}])) →
  (0 < period)%nat → length data = S (length ds) →
  ∀ (k a : nat) (g l : Qc) (result : list Chart.Point),
  0 ≤ g → 0 ≤ l → (a + k = length ds)%nat →
  ∃ g' l',
  for_range body (seq a k) (Fin g, Fin l, result)
  = Ret (Fin g', Fin l',
         result ++ zip_with rsi_point (drop (S a) data)
                     (wilder_run period g l (drop a ds))).
Proof.
  intros Hbody_eq Hp Hlen.
  induction k as [|k IH]; intros a g l result Hg Hl Hak.
  - exists g, l. simpl. rewrite (drop_ge ds) by lia. simpl.
    by rewrite zip_with_nil_r, app_nil_r.
  - destruct (lookup_lt_is_Some_2 ds a) as [d Hd]; [lia|].
    destruct (lookup_lt_is_Some_2 data (S a)) as [c Hc]; [lia|].
    assert (0 ≤ smooth period g (gain d))
      by (apply smooth_nonneg; auto using gain_nonneg).
    assert (0 ≤ smooth period l (loss d))
      by (apply smooth_nonneg; auto using loss_nonneg).
    assert (Hbody : body a (Fin g, Fin l, result)
      = Ret (Fin (smooth period g (gain d)), Fin (smooth period l (loss d)),
             result ++ [rsi_point c (smooth period g (gain d),
                                   smooth period l (loss d))])).
    { rewrite Hbody_eq, (numAt_fin _ _ _ Hd). cbv zeta.
      destruct (steady_step period g l d Hp) as [-> ->].
      replace (a + 1)%nat with (S a) by lia.
      rewrite (elem_Some _ _ _ Hc). js_step.
      by rewrite rsiValue_fin by done. }
    rewrite (drop_S _ _ _ Hd), (drop_S _ _ _ Hc).
    cbn [seq for_range wilder_run zip_with]. rewrite Hbody. js_step.
    destruct (IH (S a) (smooth period g (gain d)) (smooth period l (loss d))
                (result ++ [rsi_point c (smooth period g (gain d),
                                       smooth period l (loss d))]))
      as (g' & l' & ->); [done|done|lia|].
    exists g', l'. by rewrite <- app_assoc.
Qed.

Lemma seed_nonneg (period : nat) (ds : list Qc) :
  0 ≤ (seed period ds).1 ∧ 0 ≤ (seed period ds).2.
Proof.
  unfold seed. simpl. split; apply mean_nonneg, Forall_fmap, Forall_forall;
    intros d _; [apply gain_nonneg | apply loss_nonneg].
Qed.

(** [calculateRSI] returns, and what it returns is Wilder's series. *)
Lemma calculateRSI_spec (data : list Chart.KlineData) (period : nat) :
  (0 < period < length data)%nat →
  Chart.calculateRSI data period = Ret (rsi_points period data).
Proof.
  intros [Hp Hlen]. unfold Chart.calculateRSI.
  rewrite decide_False by lia.
  rewrite changes_loop. js_step.
  set (ds := deltas (Chart.close <$> data)).
  assert (Hds : length data = S (length ds)).
  { unfold ds. rewrite length_deltas, length_fmap. lia. }
  unfold for_loop. rewrite Nat.sub_0_r.
  change (lit 0, lit 0) with (Fin (Qc_of_Z 0), Fin (Qc_of_Z 0)).
  rewrite (seed_loop ds) by (done || lia). js_step.
  rewrite Z2Qc_inj_0, !Qcplus_0_l, drop_0, of_nat_fin.
  rewrite !ndiv_fin by (by apply Qc_of_nat_ne0).
  destruct (lookup_lt_is_Some_2 data period) as [c Hc]; [lia|].
  rewrite (elem_Some _ _ _ Hc). js_step.
  destruct (seed_nonneg period ds) as [Hg0 Hl0].
  assert (Hseed : seed period ds
    = (sum (gain <$> take period ds) / Qc_of_nat period,
       sum (loss <$> take period ds) / Qc_of_nat period)).
  { unfold seed, mean. by rewrite !length_fmap, !length_take_le by lia. }
  rewrite Hseed in Hg0, Hl0. simpl in Hg0, Hl0.
  rewrite rsiValue_fin by done.
  rewrite length_fmap.
  match goal with |- context [for_range ?b (seq period _) _] =>
    destruct (steady_loop period data ds b (λ _ _ _ _, eq_refl) Hp Hds
              (length ds - period) period
              _ _ [rsi_point c (sum (gain <$> take period ds) / Qc_of_nat period,
                              sum (loss <$> take period ds) / Qc_of_nat period)]
              Hg0 Hl0) as (g' & l' & Hloop); [lia|]
  end.
  js_rewrite Hloop.
  js_step. f_equal.
  unfold rsi_points, wilder. fold ds. rewrite Hseed.
  by rewrite (drop_S _ _ _ Hc).
Qed.

(** For every input: with too few candles both sides are empty. *)
Lemma calculateRSI_eq (data : list Chart.KlineData) (period : nat) :
  (0 < period)%nat →
  Chart.calculateRSI data period = Ret (rsi_points period data).
Proof.
  intros Hp. destruct (decide (length data ≤ period)%nat) as [Hshort|Hlong].
  - unfold Chart.calculateRSI, rsi_points.
    by rewrite decide_True, drop_ge by done.
  - apply calculateRSI_spec. lia.
Qed.

End rsi.

(** * The moving averages *)

Section sma.
Local Open Scope Qc_scope.
Import Spec.

(** The inner loop, walking back from index [i], has added up the last
    [k] closes after [k] rounds. *)
Lemma sum_loop (data : list Chart.KlineData) (i : nat)
    (body : nat → num → js num) :
  (∀ j sum, body j sum
     = (c ← elem data (i - j)%nat; Ret (sum + Fin (Chart.close c))%num)) →
  (i < length data)%nat →
  ∀ (k : nat) (a : Qc), (k ≤ i + 1)%nat →
  for_range body (seq 0 k) (Fin a)
  = Ret (Fin (a + sum (take k (drop (i + 1 - k) (Chart.close <$> data))))).
Proof.
  intros Hbody Hi. induction k as [|k IH]; intros a Hk.
  - simpl. by rewrite Qcplus_0_r.
  - rewrite seq_S, for_range_app, IH by lia. js_step.
    change (0 + k)%nat with k. cbn [for_range]. rewrite Hbody.
    destruct (lookup_lt_is_Some_2 data (i - k)) as [c Hc]; [lia|].
    rewrite (elem_Some _ _ _ Hc). js_step. rewrite bind_Ret.
    replace (i + 1 - S k)%nat with (i - k)%nat by lia.
    rewrite (drop_S _ (Chart.close c) (i - k))
      by (by rewrite list_lookup_fmap, Hc).
    replace (S (i - k)) with (i + 1 - k)%nat by lia.
    cbn [take sum foldr nadd]. fold (sum (take k (drop (i + 1 - k) (Chart.close <$> data)))).
    do 2 f_equal. ring.
Qed.

Lemma length_window {A} (period i : nat) (l : list A) :
  (period - 1 ≤ i < length l)%nat → length (window period i l) = period.
Proof.
  intros Hi. unfold window. rewrite length_take_le; [done|].
  rewrite length_drop. lia.
Qed.

(** The loop of the effect returns, and what it returns is the series of
    trailing means. *)
Lemma smaLoop_spec (period : nat) (data : list Chart.KlineData) :
  (0 < period)%nat →
  Chart.smaLoop period data = Ret (sma_points period data).
Proof.
  intros Hp. unfold Chart.smaLoop, for_loop.
  set (timeAt := λ i, default 0 (Chart.timestamp <$> data !! i)).
  rewrite (for_range_push
    (λ i, {| Chart.x := Chart.new_Date (timeAt i);
             Chart.y := Fin (sma period i (Chart.close <$> data)) |})).
  - f_equal. rewrite app_nil_l. unfold sma_points. apply list_eq. intros k.
    rewrite list_lookup_fmap, list_lookup_imap, lookup_drop.
    destruct (decide (k < length data - (period - 1))%nat) as [Hk|Hk].
    + rewrite lookup_seq_lt by done.
      destruct (lookup_lt_is_Some_2 data (period - 1 + k)) as [c Hc]; [lia|].
      rewrite Hc. simpl. unfold timeAt. by rewrite Hc.
    + rewrite lookup_seq_ge by lia.
      by rewrite (lookup_ge_None_2 data) by lia.
  - intros i acc Hi. apply elem_of_seq in Hi.
    rewrite Nat.sub_0_r.
    change (lit 0) with (Fin (Qc_of_Z 0)).
    rewrite (sum_loop data i) by (done || lia). js_step.
    destruct (lookup_lt_is_Some_2 data i) as [c Hc]; [lia|].
    rewrite (elem_Some _ _ _ Hc). js_step.
    rewrite of_nat_fin, ndiv_fin by (by apply Qc_of_nat_ne0).
    unfold timeAt. rewrite Hc. simpl. do 4 f_equal.
    unfold sma, mean. rewrite length_window by (rewrite length_fmap; lia).
    unfold window. by rewrite Z2Qc_inj_0, Qcplus_0_l.
Qed.

Lemma length_sma_points (period : nat) (data : list Chart.KlineData) :
  length (sma_points period data) = (length data - (period - 1))%nat.
Proof. unfold sma_points. by rewrite length_imap, length_drop. Qed.

Lemma lookup_sma_points period data k p :
  sma_points period data !! k = Some p ↔
  ∃ c, data !! (period - 1 + k)%nat = Some c ∧
       p = {| Chart.x := Chart.new_Date (Chart.timestamp c);
              Chart.y := Fin (sma period (period - 1 + k) (Chart.close <$> data)) |}.
Proof.
  unfold sma_points. rewrite list_lookup_imap_Some.
  by setoid_rewrite lookup_drop.
Qed.

End sma.

(** * The indicator series: range, alignment, warm-up *)

Section series.
Local Open Scope Qc_scope.
Import Spec.

Lemma fmap_zip_with_fst {A B C D} (g : C → D) (h : A → D) (f : A → B → C)
    (l : list A) (k : list B) :
  (∀ a b, g (f a b) = h a) → (length l ≤ length k)%nat →
  g <$> zip_with f l k = h <$> l.
Proof.
  intros Hf. revert k. induction l as [|a l IH]; intros [|b k] Hlen;
    simpl in *; [done|done|lia|].
  rewrite Hf. f_equal. apply IH. lia.
Qed.

Lemma length_wilder_run period g l ds :
  length (wilder_run period g l ds) = length ds.
Proof. revert g l. induction ds as [|d ds IH]; intros g l; simpl; [done|]. by rewrite IH. Qed.

Lemma length_wilder period closes :
  length (wilder period closes) = S (length closes - 1 - period).
Proof.
  unfold wilder. destruct (seed period (deltas closes)) as [g l]. simpl.
  by rewrite length_wilder_run, length_drop, length_deltas.
Qed.

Lemma wilder_nonneg period closes :
  (0 < period)%nat → Forall (λ gl, 0 ≤ gl.1 ∧ 0 ≤ gl.2) (wilder period closes).
Proof.
  intros Hp. unfold wilder.
  pose proof (seed_nonneg period (deltas closes)) as [Hg Hl].
  destruct (seed period (deltas closes)) as [g l]. simpl in *.
  constructor; [done|]. by apply wilder_run_nonneg.
Qed.

Lemma length_rsi_points period data :
  (period < length data)%nat →
  length (rsi_points period data) = (length data - period)%nat.
Proof.
  intros Hp. unfold rsi_points. rewrite length_zip_with, length_drop, length_wilder,
    length_fmap. lia.
Qed.

Lemma rsi_points_times period data :
  (period < length data)%nat →
  Chart.x <$> rsi_points period data
  = (λ c, Chart.new_Date (Chart.timestamp c)) <$> drop period data.
Proof.
  intros Hp. unfold rsi_points. apply fmap_zip_with_fst; [done|].
  rewrite length_drop, length_wilder, length_fmap. lia.
Qed.

(** Every point of Wilder's series is the formula of the source on
    non-negative averages, and lies in the range. *)
Lemma rsi_points_range period data :
  (0 < period)%nat →
  Forall (λ p, ∃ g l q, 0 ≤ g ∧ 0 ≤ l ∧
                 Chart.y p = Chart.rsiValue (Fin g) (Fin l) ∧
                 Chart.y p = Fin q ∧ 0 ≤ q ≤ Qc_of_Z 100)
    (rsi_points period data).
Proof.
  intros Hp. unfold rsi_points.
  eapply Forall_zip_with_snd; [|by apply wilder_nonneg].
  apply Forall_forall. intros c _ [g l] [Hg Hl]. simpl in *.
  exists g, l, (rsi g l). rewrite rsiValue_fin by done.
  destruct (rsi_bounds g l Hg Hl) as [H0 H100].
  repeat split; [done..|]. by apply Qclt_le_weak.
Qed.

Lemma sma_points_times period data :
  Chart.x <$> sma_points period data
  = (λ c, Chart.new_Date (Chart.timestamp c)) <$> drop (period - 1) data.
Proof.
  unfold sma_points. rewrite fmap_imap. apply list_eq. intros k.
  by rewrite list_lookup_imap, list_lookup_fmap.
Qed.

Lemma sma_points_finite period data :
  Forall (λ p, finite (Chart.y p)) (sma_points period data).
Proof.
  apply Forall_lookup. intros k p Hk.
  apply lookup_sma_points in Hk as (c & _ & ->). simpl. by eexists.
Qed.

End series.

(** * The claims about the indicators *)

Section indicator_claims.
Local Open Scope Qc_scope.
Import Spec.


(** C2.  For [period - 1 ≤ i < n] the point that SMA20 (period 20) and
    SMA50 (period 50) emit for candle [i] holds the arithmetic mean of the
    closes at indices [i - period + 1] through [i]; on closes 10, 11, ..., 29
    the value of SMA20 at the 20th candle is 19.5. *)
Theorem sma_is_trailing_mean :
  (∀ (data : list Chart.KlineData) (i : nat) (c : Chart.KlineData),
      (19 ≤ i)%nat → data !! i = Some c →
      ∃ pts, Chart.sma20 data = Ret pts ∧
        pts !! (i - 19)%nat
        = Some {| Chart.x := Chart.new_Date (Chart.timestamp c);
                  Chart.y := Fin (mean (window 20 i (Chart.close <$> data))) |}) ∧
  (∀ (data : list Chart.KlineData) (i : nat) (c : Chart.KlineData),
      (49 ≤ i)%nat → data !! i = Some c →
      ∃ pts, Chart.sma50 data = Ret pts ∧
        pts !! (i - 49)%nat
        = Some {| Chart.x := Chart.new_Date (Chart.timestamp c);
                  Chart.y := Fin (mean (window 50 i (Chart.close <$> data))) |}) ∧
  (∀ data : list Chart.KlineData,
      Chart.close <$> data = (λ i, Qc_of_Z (Z.of_nat i)) <$> seq 10 20 →
      ∃ pts p, Chart.sma20 data = Ret pts ∧ pts !! 0%nat = Some p ∧
        Chart.y p = Fin (Q2Qc (39 # 2))).
Proof.
  assert (Hgen : ∀ period (data : list Chart.KlineData) i c,
    (0 < period)%nat → (period - 1 ≤ i)%nat → data !! i = Some c →
    ∃ pts, Chart.smaLoop period data = Ret pts ∧
      pts !! (i - (period - 1))%nat
      = Some {| Chart.x := Chart.new_Date (Chart.timestamp c);
                Chart.y := Fin (mean (window period i (Chart.close <$> data))) |}).
  { intros period data i c Hp Hi Hc. exists (sma_points period data).
    split; [by apply smaLoop_spec|].
    apply lookup_sma_points. exists c.
    replace (period - 1 + (i - (period - 1)))%nat with i by lia. done. }
  split; [|split].
  - intros data i c Hi Hc. apply (Hgen 20%nat data i c); [lia|simpl; lia|done].
  - intros data i c Hi Hc. apply (Hgen 50%nat data i c); [lia|simpl; lia|done].
  - intros data Hcloses.
    assert (Hlen : length data = 20%nat).
    { by rewrite <- (length_fmap Chart.close), Hcloses, length_fmap, length_seq. }
    destruct (lookup_lt_is_Some_2 data 19) as [c Hc]; [lia|].
    destruct (Hgen 20%nat data 19%nat c) as (pts & Hpts & Hlook); [lia|simpl; lia|done|].
    eexists pts, _. split; [done|]. split; [exact Hlook|]. simpl.
    rewrite Hcloses. f_equal. apply Qc_is_canon. by vm_compute.
Qed.

Lemma sma_is_trailing_mean_witness :
  ∃ pts, Chart.sma20 Sample.closes_10_29 = Ret pts ∧
    pts !! (19 - 19)%nat
    = Some {| Chart.x := Chart.new_Date (Chart.timestamp (Sample.candle 19 (Qc_of_Z 10 + Qc_of_Z 19 * 1)%Qc));
              Chart.y := Fin (mean (window 20 19 (Chart.close <$> Sample.closes_10_29))) |}.
Proof.
  apply (proj1 sma_is_trailing_mean Sample.closes_10_29 19%nat).
  - lia.
  - reflexivity.
Defined.

(** C3.  [calculateRSI(data, period)] is Wilder's smoothing in two phases:
    the seed averages are the means of the gains and of the losses over the
    first [period] changes, the first value is emitted for the candle at
    index [period], and every further change updates the averages by
    [(avg*(period-1) + v)/period] with [v] the gain [max(Δ,0)] or the loss
    [max(-Δ,0)]; each value is [100 − 100/(1+RS)]. *)
Theorem rsi_is_wilder_smoothing (data : list Chart.KlineData) (period : nat) :
  (0 < period)%nat →
  Chart.calculateRSI data period = Ret (rsi_points period data).
Proof.
  intros Hp. destruct (decide (length data ≤ period)%nat) as [Hshort|Hlong].
  - (* too few candles: the early return, and an empty series on the right *)
    unfold Chart.calculateRSI, rsi_points.
    by rewrite decide_True, drop_ge by done.
  - (* the three loops, each against its phase *)
    apply calculateRSI_spec. lia.
Qed.

Lemma rsi_is_wilder_smoothing_witness :
  Chart.calculateRSI (Sample.ramp 1 1 16) 14
  = Ret (rsi_points 14 (Sample.ramp 1 1 16)).
Proof.
  apply (rsi_is_wilder_smoothing (Sample.ramp 1 1 16) 14).
  lia.
Defined.



End indicator_claims.

(** * Zero average loss *)

Section zero_loss.
Local Open Scope Qc_scope.
Import Spec.

Lemma sum_replicate (n : nat) (q : Qc) :
  sum (replicate n q) = Qc_of_nat n * q.
Proof.
  induction n as [|n IH].
  - cbn [replicate sum foldr]. change (Qc_of_nat 0) with (Qc_of_Z 0).
    by rewrite Z2Qc_inj_0, Qcmult_0_l.
  - cbn [replicate sum foldr]. fold (sum (replicate n q)). rewrite IH.
    unfold Qc_of_nat. rewrite Nat2Z.inj_succ, <- Z.add_1_r, Z2Qc_inj_add, Z2Qc_inj_1.
    ring.
Qed.

Lemma mean_replicate (n : nat) (q : Qc) :
  (0 < n)%nat → mean (replicate n q) = q.
Proof.
  intros Hn. unfold mean. rewrite sum_replicate, length_replicate.
  field. by apply Qc_of_nat_ne0.
Qed.

Lemma smooth_fixed (period : nat) (q : Qc) :
  (0 < period)%nat → smooth period q q = q.
Proof. intros Hp. unfold smooth. field. by apply Qc_of_nat_ne0. Qed.

Lemma Qcmult_nonneg_pos_iff (p z : Qc) : 0 < z → 0 ≤ p * z ↔ 0 ≤ p.
Proof.
  intros Hz. rewrite <- (Qcmult_0_l z) at 1.
  symmetry. by apply Qcmult_le_mono_pos_r.
Qed.

Lemma rsi_zero_loss (g : Qc) :
  rsi g 0 = Qc_of_Z 100 - Qc_of_Z 100 / (1 + g / milli).
Proof. unfold rsi, rs. by rewrite decide_True. Qed.

(** On zero loss the value is at least 99 exactly when the average gain
    is at least 0.099. *)
Lemma rsi_zero_loss_near_100 (g : Qc) :
  0 ≤ g → near_100 (Fin (rsi g 0)) ↔ Q2Qc (99 # 1000) ≤ g.
Proof.
  intros Hg. destruct (rsi_bounds g 0 Hg) as [_ Hlt]; [done|].
  assert (Hhigh : rsi g 0 ≤ Qc_of_Z 100) by (by apply Qclt_le_weak).
  assert (Ht : 0 < 1 + g / milli).
  { apply Qcplus_pos_nonneg; [done|]. apply Qcdiv_nonneg; [done|apply milli_pos]. }
  assert (Hne : 1 + g / milli ≠ 0).
  { intros E. rewrite E in Ht. by apply Qclt_not_eq in Ht. }
  assert (Hmne : milli ≠ 0) by done.
  assert (Hthousand : 0 < Qc_of_Z 1000) by done.
  assert (Hmilli : milli = / Qc_of_Z 1000) by (by apply Qc_is_canon).
  assert (Hkey : Qc_of_Z 99 ≤ rsi g 0 ↔ Q2Qc (99 # 1000) ≤ g).
  { rewrite (Qcle_minus_iff (Qc_of_Z 99)), (Qcle_minus_iff (Q2Qc (99 # 1000))).
    rewrite rsi_zero_loss.
    replace (Qc_of_Z 100 - Qc_of_Z 100 / (1 + g / milli) + - Qc_of_Z 99)
      with ((g + - Q2Qc (99 # 1000)) * Qc_of_Z 1000 * / (1 + g / milli)).
    - rewrite Qcmult_nonneg_pos_iff by (by apply Qcinv_pos).
      by rewrite Qcmult_nonneg_pos_iff.
    - assert (H99 : Q2Qc (99 # 1000) = Qc_of_Z 99 * milli) by (by apply Qc_is_canon).
      assert (H100 : Qc_of_Z 100 = Qc_of_Z 99 + 1) by (by apply Qc_is_canon).
      rewrite H99, H100, Hmilli in *.
      assert (Hk : Qc_of_Z 1000 ≠ 0) by done.
      generalize dependent (Qc_of_Z 1000). generalize (Qc_of_Z 99).
      intros a k Ht' Hne' Hmne' Hk' Hmilli' H99' Hk. field.
      split; [done|]. split; [done|].
      intros E. apply Hne'.
      replace (1 + g / / k) with (1 + g * k) by (by field). exact E. }
  split.
  - intros (q & [= <-] & Hq & _). by apply Hkey.
  - intros Hd. exists (rsi g 0). split; [done|]. split; [by apply Hkey|done].
Qed.

End zero_loss.

(** * A run of equal rises *)

Section rising_run.
Local Open Scope Qc_scope.
Import Spec.

(** Fifteen equal rises [d]: the averages stay at [(d, 0)], and two points
    are emitted, for the candles at indices 14 and 15. *)
Lemma rising_run_points (data : list Chart.KlineData) (d : Qc) :
  0 < d → deltas (Chart.close <$> data) = replicate 15 d →
  ∃ c14 c15, rsi_points 14 data = [rsi_point c14 (d, 0); rsi_point c15 (d, 0)].
Proof.
  intros Hd Hds.
  assert (Hlen : length data = 16%nat).
  { pose proof (length_deltas (Chart.close <$> data)) as H.
    rewrite Hds, length_replicate, length_fmap in H. lia. }
  destruct (lookup_lt_is_Some_2 data 14) as [c14 H14]; [lia|].
  destruct (lookup_lt_is_Some_2 data 15) as [c15 H15]; [lia|].
  exists c14, c15. unfold rsi_points, wilder. rewrite Hds.
  rewrite (drop_S _ _ _ H14), (drop_S _ _ _ H15), (drop_ge data 16) by lia.
  destruct (gain_pos d Hd) as [Hgain Hloss].
  unfold seed. rewrite take_replicate, !fmap_replicate, Hgain, Hloss.
  rewrite !mean_replicate by (simpl; lia).
  rewrite drop_replicate. cbn [Nat.sub replicate wilder_run].
  rewrite Hgain, Hloss, !smooth_fixed by lia. done.
Qed.




End rising_run.

(** * The component: what the effect and the handler write *)

Section component.
Import Chart Component.
Local Close Scope Qc_scope.

Variable JSON_parse : string → js jsval.
Variable parseFloat : jsval → num.

Local Abbreviation onmessage := (Component.onmessage JSON_parse parseFloat).
Local Abbreviation step := (Component.step JSON_parse parseFloat).
Local Abbreviation run := (Component.run JSON_parse parseFloat).
Local Abbreviation event_price := (Component.event_price JSON_parse parseFloat).
Local Abbreviation last_price := (Component.last_price JSON_parse parseFloat).

(** The effect returns; it installs the indicators of the batch and
    publishes the close of its final candle. *)
Lemma processMarketData_Some (d : list KlineData) (st : State) :
  ∃ st', processMarketData (Some d) st = Ret st' ∧
    rsiData st' = Spec.rsi_points 14 d ∧
    sma20Data st' = Spec.sma_points 20 d ∧
    sma50Data st' = Spec.sma_points 50 d ∧
    length (candlestickData st') = length d ∧
    currentPrice st'
    = match last d with
      | Some c => Some (Fin (close c))
      | None => currentPrice st
      end.
Proof.
  unfold processMarketData, sma20, sma50. cbv zeta.
  rewrite (smaLoop_spec 20) by lia. js_step.
  rewrite (smaLoop_spec 50) by lia. js_step.
  rewrite (calculateRSI_eq d 14) by lia. js_step.
  case_decide as Hlen.
  - destruct (lookup_lt_is_Some_2 d (length d - 1)) as [c Hc]; [lia|].
    rewrite (elem_Some _ _ _ Hc). js_step.
    eexists. split; [done|]. cbn. rewrite length_fmap.
    rewrite last_lookup. replace (pred (length d)) with (length d - 1)%nat by lia.
    by rewrite Hc.
  - eexists. split; [done|]. cbn. rewrite length_fmap.
    destruct d as [|c d]; [done|]. simpl in Hlen. lia.
Qed.

Lemma getProp_truthy (v : jsval) (key : string) :
  truthy v = true → ∃ w, getProp v key = Ret w.
Proof. destruct v; simpl; intros H; try done; by eexists. Qed.

(** The handler either publishes the close of the event or does nothing. *)
Lemma onmessage_state (captured : list OhlcPoint) (event_data : string) (st : State) :
  (onmessage captured event_data st).1
  = match event_price (Message captured event_data) with
    | Some p => setCurrentPrice p st
    | None => st
    end.
Proof.
  unfold Component.onmessage, Component.event_price.
  destruct (JSON_parse event_data) as [m|e]; [|done]. rewrite !bind_Ret.
  destruct (getProp m "k") as [k|e]; [|done]. rewrite !bind_Ret.
  destruct (truthy k) eqn:Hk; [|done].
  destruct (getProp_truthy k "t" Hk) as [t ->].
  destruct (getProp_truthy k "o" Hk) as [o ->].
  destruct (getProp_truthy k "h" Hk) as [h ->].
  destruct (getProp_truthy k "l" Hk) as [l ->].
  destruct (getProp_truthy k "c" Hk) as [c ->].
  destruct (getProp_truthy k "v" Hk) as [v ->].
  destruct (getProp_truthy k "x" Hk) as [x ->].
  rewrite !bind_Ret. cbv zeta.
  by destruct (truthy x && bool_decide (0 < length captured)).
Qed.

Lemma step_price (st : State) (ev : event) :
  currentPrice (step st ev)
  = match event_price ev with
    | Some p => Some p
    | None => currentPrice st
    end.
Proof.
  destruct ev as [[d|]|captured event_data].
  - unfold Component.step.
    destruct (processMarketData_Some d st) as (st' & -> & _ & _ & _ & _ & ->).
    unfold Component.event_price. by destruct (last d).
  - done.
  - unfold Component.step. rewrite onmessage_state.
    by destruct (event_price (Message captured event_data)).
Qed.

Lemma step_indicators (st : State) (ev : event) :
  indicators (step st ev)
  = match ev with
    | MarketData (Some d) =>
        (Spec.rsi_points 14 d, Spec.sma_points 20 d, Spec.sma_points 50 d)
    | _ => indicators st
    end.
Proof.
  destruct ev as [[d|]|captured event_data].
  - unfold Component.step, indicators.
    by destruct (processMarketData_Some d st) as (st' & -> & -> & -> & -> & _).
  - done.
  - unfold Component.step. rewrite onmessage_state.
    by destruct (event_price (Message captured event_data)).
Qed.


(** C8.  Delivering a socket message a second time leaves the state as the
    first delivery left it, and no delivery touches the candle series. *)
Theorem onmessage_twice (captured captured' : list OhlcPoint)
    (event_data : string) (st : State) :
  (onmessage captured' event_data (onmessage captured event_data st).1).1
  = (onmessage captured event_data st).1 ∧
  candlestickData (onmessage captured event_data st).1 = candlestickData st ∧
  volumeData (onmessage captured event_data st).1 = volumeData st.
Proof.
  rewrite !onmessage_state. unfold Component.event_price.
  by destruct (_ ≫= _) as [[p|]|e].
Qed.


End component.


(** * Fetching the market data *)

Section fetching.
Import Component.
Local Close Scope Qc_scope.

Variable fetch : string → js Response.

Local Abbreviation fetchMarketData := (Component.fetchMarketData fetch).

Lemma lit_eq_0 (n : nat) : nstrict_eq (of_nat n) (lit 0) = bool_decide (n = 0%nat).
Proof.
  unfold of_nat, lit, nstrict_eq. apply bool_decide_ext. split.
  - intros [= H]. lia.
  - by intros ->.
Qed.

Lemma fetch_not_ok symbol interval (r : Response) :
  fetch (market_url symbol interval) = Ret r → ok r = false →
  ∃ e, fetchMarketData symbol interval = Throw e.
Proof.
  intros Hr Hok. unfold Component.fetchMarketData.
  rewrite Hr, bind_Ret, Hok. cbn [negb].
  destruct (text r) as [errorText|e]; by eexists.
Qed.

(** C6.  [fetchMarketData] throws for every response that is not ok (the
    status 500 of the route's error path among them) and for every empty
    array, also when the request itself fails; it returns the parsed
    payload only when the response is ok and the payload is not an empty
    array, and a non-empty array is returned as it is. *)
Theorem fetchMarketData_throws_without_data (symbol interval : string) :
  (∀ e, fetch (market_url symbol interval) = Throw e →
     fetchMarketData symbol interval = Throw e) ∧
  (∀ r, fetch (market_url symbol interval) = Ret r → ok r = false →
     ∃ e, fetchMarketData symbol interval = Throw e) ∧
  (∀ r, fetch (market_url symbol interval) = Ret r → status r = 500%Z →
     ∃ e, fetchMarketData symbol interval = Throw e) ∧
  (∀ r, fetch (market_url symbol interval) = Ret r → ok r = true →
     json r = Ret (JArr []) →
     fetchMarketData symbol interval = Throw (Error "No data received from API")) ∧
  (∀ r items, fetch (market_url symbol interval) = Ret r → ok r = true →
     json r = Ret (JArr items) → items ≠ [] →
     fetchMarketData symbol interval = Ret (JArr items)) ∧
  (∀ data, fetchMarketData symbol interval = Ret data →
     data ≠ JArr [] ∧
     ∃ r, fetch (market_url symbol interval) = Ret r ∧ ok r = true ∧
          json r = Ret data).
Proof.
  split; [|split; [|split; [|split; [|split]]]].
  - intros e He. unfold Component.fetchMarketData. by rewrite He.
  - apply fetch_not_ok.
  - intros r Hr Hst. apply (fetch_not_ok _ _ r Hr).
    unfold ok. rewrite Hst. by apply bool_decide_eq_false_2; lia.
  - intros r Hr Hok Hjson. unfold Component.fetchMarketData.
    by rewrite Hr, bind_Ret, Hok, Hjson.
  - intros r items Hr Hok Hjson Hne. unfold Component.fetchMarketData.
    rewrite Hr, bind_Ret, Hok, Hjson. cbn [negb]. rewrite bind_Ret.
    cbn [getProp]. rewrite decide_True by done. rewrite bind_Ret.
    cbn [truthy negb orb strict_eq_num]. rewrite lit_eq_0.
    rewrite bool_decide_eq_false_2; [done|]. by destruct items.
  - intros data. unfold Component.fetchMarketData.
    destruct (fetch _) as [r|e]; [|done]. rewrite bind_Ret.
    destruct (ok r) eqn:Hok; cbn [negb]; [|by destruct (text r)].
    destruct (json r) as [d|e] eqn:Hjson; [|done]. rewrite bind_Ret.
    destruct (getProp d "length") as [len|e] eqn:Hlen; [|done].
    rewrite bind_Ret.
    destruct (negb (truthy d) || strict_eq_num len (lit 0)) eqn:Hempty; [done|].
    intros [= ->]. split; [|by exists r].
    intros ->. cbn [getProp] in Hlen. rewrite decide_True in Hlen by done.
    injection Hlen as <-. by cbn in Hempty.
Qed.

End fetching.

Lemma fetchMarketData_throws_without_data_witness :
  ∃ e, Component.fetchMarketData (λ _, Ret Sample.response_500) "BTCUSDT" "1m"
       = Throw e.
Proof.
  apply (proj1 (proj2 (proj2 (fetchMarketData_throws_without_data
           (λ _, Ret Sample.response_500) "BTCUSDT" "1m")))
         Sample.response_500);
    reflexivity.
Defined.

(** * The market-data route *)

Section route.
Import Route.
Local Close Scope Qc_scope.

Variable fetch : string → js Response.
Variable Number : jsval → num.
Variable parseFloat : jsval → num.

Local Abbreviation formatRow := (Route.formatRow Number parseFloat).
Local Abbreviation GET := (Route.GET fetch Number parseFloat).

(** [map] over an array returns when the callback returns on every item,
    and then yields the results item by item. *)
Lemma mapM_Ret {A B} (f : A → js B) (l : list A) (k : list B) :
  mapM f l = Ret k ↔ Forall2 (λ a b, f a = Ret b) l k.
Proof.
  revert k. induction l as [|a l IH]; intros k; simpl.
  - split; [intros [= <-]; constructor | by inv 1].
  - split.
    + destruct (f a) as [b|e] eqn:Hb; [|done]. simpl.
      destruct (mapM f l) as [k'|e] eqn:Hk; [|done]. simpl.
      intros [= <-]. constructor; [done|]. by apply IH.
    + inv 1 as [|? b ? k' Hb Hk]. rewrite Hb. simpl.
      apply IH in Hk. by rewrite Hk.
Qed.

Lemma mapM_total {A B} (f : A → js B) (l : list A) :
  Forall (λ a, ∃ b, f a = Ret b) l → ∃ k, mapM f l = Ret k.
Proof.
  induction 1 as [|a l [b Hb] _ [k Hk]]; simpl; [by eexists|].
  rewrite Hb. simpl. rewrite Hk. by eexists.
Qed.

Lemma formatRow_Ret (row : jsval) (out : KlineData) :
  formatRow row = Ret out ↔
  ∃ items, iterate row = Ret items ∧
    out = {| timestamp := Number (item items 0);
             open := parseFloat (item items 1);
             high := parseFloat (item items 2);
             low := parseFloat (item items 3);
             close := parseFloat (item items 4);
             volume := parseFloat (item items 5) |}.
Proof.
  unfold Route.formatRow. destruct (iterate row) as [items|e]; simpl.
  - split; [intros [= <-]; by eexists | by intros (? & [= <-] & ->)].
  - split; [done | by intros (? & ? & _)].
Qed.


End route.


(** * Further properties of the moving averages *)

Section sma_more.
Local Open Scope Qc_scope.
Import Spec.

Lemma sum_bounds (lo hi : Qc) (l : list Qc) :
  Forall (λ q, lo ≤ q ≤ hi) l →
  Qc_of_nat (length l) * lo ≤ sum l ≤ Qc_of_nat (length l) * hi.
Proof.
  induction 1 as [|q l [Hlo Hhi] _ [IHlo IHhi]].
  - cbn [length sum foldr]. change (Qc_of_nat 0) with (Qc_of_Z 0).
    by rewrite Z2Qc_inj_0, !Qcmult_0_l.
  - cbn [length sum foldr]. fold (sum l).
    assert (HS : ∀ z, Qc_of_nat (S (length l)) * z = z + Qc_of_nat (length l) * z).
    { intros z. unfold Qc_of_nat.
      rewrite Nat2Z.inj_succ, <- Z.add_1_r, Z2Qc_inj_add, Z2Qc_inj_1. ring. }
    rewrite !HS. split; by apply Qcplus_le_compat.
Qed.

(** A mean lies between any bounds of its terms. *)
Lemma mean_bounds (lo hi : Qc) (l : list Qc) :
  l ≠ [] → Forall (λ q, lo ≤ q ≤ hi) l → lo ≤ mean l ≤ hi.
Proof.
  intros Hne Hl. destruct (sum_bounds lo hi l Hl) as [Hlo Hhi].
  assert (Hn : 0 < Qc_of_nat (length l)).
  { apply Qc_of_nat_pos. destruct l; [done|simpl; lia]. }
  assert (Hn0 : Qc_of_nat (length l) ≠ 0).
  { intros E. rewrite E in Hn. by apply Qclt_not_eq in Hn. }
  unfold mean. split.
  - apply (Qcmult_le_mono_pos_r _ _ (Qc_of_nat (length l))); [done|].
    replace (sum l / Qc_of_nat (length l) * Qc_of_nat (length l)) with (sum l)
      by (by field).
    by rewrite Qcmult_comm.
  - apply (Qcmult_le_mono_pos_r _ _ (Qc_of_nat (length l))); [done|].
    replace (sum l / Qc_of_nat (length l) * Qc_of_nat (length l)) with (sum l)
      by (by field).
    by rewrite (Qcmult_comm hi).
Qed.

Lemma Forall_window {A} (P : A → Prop) (period i : nat) (l : list A) :
  Forall P l → Forall P (window period i l).
Proof. intros H. unfold window. by apply Forall_take, Forall_drop. Qed.


Lemma sum_snoc (l : list Qc) (q : Qc) : sum (l ++ [q]) = sum l + q.
Proof.
  induction l as [|a l IH]; cbn [app sum foldr].
  - by rewrite Qcplus_0_l, Qcplus_0_r.
  - fold (sum (l ++ [q])) (sum l). rewrite IH. ring.
Qed.

(** Moving the window one step: the oldest value leaves, the next enters. *)
Lemma sum_slide (l : list Qc) (period k : nat) (out inn : Qc) :
  (0 < period)%nat → l !! k = Some out → l !! (k + period)%nat = Some inn →
  sum (take period (drop (S k) l)) = sum (take period (drop k l)) - out + inn.
Proof.
  intros Hp Hout Hin. destruct period as [|p]; [lia|].
  rewrite (drop_S l out k Hout). cbn [take sum foldr].
  fold (sum (take p (drop (S k) l))).
  rewrite (take_S_r _ _ inn).
  - rewrite sum_snoc. ring.
  - rewrite lookup_drop. rewrite <- Hin. f_equal. lia.
Qed.

Lemma sma_slide (period : nat) (data : list Chart.KlineData) (k : nat)
    (cout cin : Chart.KlineData) :
  (0 < period)%nat →
  data !! k = Some cout → data !! (k + period)%nat = Some cin →
  ∃ pts a b, Chart.smaLoop period data = Ret pts ∧
    pts !! k = Some a ∧ pts !! S k = Some b ∧
    Chart.y b = (Chart.y a + (Fin (Chart.close cin) - Fin (Chart.close cout))
                             / of_nat period)%num.
Proof.
  intros Hp Hout Hin.
  pose proof (lookup_lt_Some _ _ _ Hin) as Hlen.
  destruct (lookup_lt_is_Some_2 data (period - 1 + k)) as [ca Hca]; [lia|].
  destruct (lookup_lt_is_Some_2 data (period - 1 + S k)) as [cb Hcb]; [lia|].
  eexists (sma_points period data), _, _.
  split; [by apply smaLoop_spec|].
  split; [apply lookup_sma_points; by exists ca|].
  split; [apply lookup_sma_points; by exists cb|].
  cbn [Chart.y]. rewrite of_nat_fin. cbn [nsub nneg nadd].
  rewrite ndiv_fin by (by apply Qc_of_nat_ne0). cbn [nadd]. f_equal.
  unfold sma, mean.
  rewrite !length_window by (rewrite length_fmap; lia).
  unfold window.
  replace (period - 1 + S k + 1 - period)%nat with (S k) by lia.
  replace (period - 1 + k + 1 - period)%nat with k by lia.
  rewrite (sum_slide _ period k (Chart.close cout) (Chart.close cin));
    [|done|by rewrite list_lookup_fmap, Hout|by rewrite list_lookup_fmap, Hin].
  field. by apply Qc_of_nat_ne0.
Qed.


End sma_more.



(** * Further properties of [calculateRSI] *)

Section rsi_more.
Local Open Scope Qc_scope.
Import Spec.

Lemma sum_zero (l : list Qc) : Forall (λ q, q = 0) l → sum l = 0.
Proof.
  induction 1 as [|q l -> _ IH]; [done|].
  cbn [sum foldr]. fold (sum l). by rewrite IH, Qcplus_0_l.
Qed.

Lemma mean_zero (l : list Qc) : Forall (λ q, q = 0) l → mean l = 0.
Proof. intros H. unfold mean, Qcdiv. by rewrite (sum_zero l H), Qcmult_0_l. Qed.

Lemma gain_zero (d : Qc) : d ≤ 0 → gain d = 0.
Proof. intros Hd. unfold gain, Qcmax. by rewrite decide_True. Qed.

Lemma smooth_zero (period : nat) : smooth period 0 0 = 0.
Proof. unfold smooth, Qcdiv. ring. Qed.

Lemma rsi_zero_gain (l : Qc) : rsi 0 l = 0.
Proof.
  unfold rsi, rs, Qcdiv. rewrite Qcmult_0_l, Qcplus_0_r.
  assert (H1 : / 1 = 1) by (by apply Qc_is_canon).
  rewrite H1, Qcmult_1_r. apply Qcplus_opp_r.
Qed.

Lemma wilder_run_no_rise (period : nat) (l : Qc) (ds : list Qc) :
  Forall (λ d, d ≤ 0) ds →
  Forall (λ gl, gl.1 = 0) (wilder_run period 0 l ds).
Proof.
  intros Hds. revert l. induction Hds as [|d ds Hd _ IH]; intros l; simpl.
  - constructor.
  - rewrite (gain_zero d Hd), smooth_zero. constructor; [done|]. apply IH.
Qed.

Lemma wilder_no_rise (period : nat) (closes : list Qc) :
  Forall (λ d, d ≤ 0) (deltas closes) →
  Forall (λ gl, gl.1 = 0) (wilder period closes).
Proof.
  intros Hds. unfold wilder, seed.
  assert (Hg : mean (gain <$> take period (deltas closes)) = 0).
  { apply mean_zero, Forall_fmap. eapply Forall_impl; [by apply Forall_take|].
    intros d Hd. by apply gain_zero. }
  rewrite Hg. constructor; [done|].
  by apply wilder_run_no_rise, Forall_drop.
Qed.

Lemma deltas_falling (data : list Chart.KlineData) :
  (∀ i c c', data !! i = Some c → data !! S i = Some c' →
             Chart.close c' ≤ Chart.close c) →
  Forall (λ d, d ≤ 0) (deltas (Chart.close <$> data)).
Proof.
  intros Hfall. apply Forall_lookup. intros i d Hd. unfold deltas in Hd.
  apply lookup_zip_with_Some in Hd as (p & c & -> & Hp & Hc).
  rewrite lookup_tail in Hc. rewrite list_lookup_fmap in Hp, Hc.
  destruct (data !! i) as [cp|] eqn:Hcp; [|done].
  destruct (data !! S i) as [cc|] eqn:Hcc; [|done].
  injection Hp as <-. injection Hc as <-.
  apply Qcle_minus_iff. specialize (Hfall i cp cc Hcp Hcc).
  apply Qcle_minus_iff in Hfall.
  replace (0 + - (Chart.close cc - Chart.close cp))
    with (Chart.close cp + - Chart.close cc) by ring. done.
Qed.

(** When no close is above the one before it (a flat or falling market),
    every RSI value is exactly 0. *)
Theorem rsi_zero_without_rises (data : list Chart.KlineData) :
  (∀ i c c', data !! i = Some c → data !! S i = Some c' →
             Chart.close c' ≤ Chart.close c) →
  ∃ pts, Chart.calculateRSI data 14 = Ret pts ∧
    Forall (λ p, Chart.y p = Fin 0) pts.
Proof.
  intros Hfall. exists (rsi_points 14 data).
  split; [apply calculateRSI_eq; lia|].
  unfold rsi_points. eapply Forall_zip_with_snd;
    [|apply wilder_no_rise, deltas_falling, Hfall].
  apply Forall_forall. intros c _ [g l] Hg. simpl in Hg. subst g.
  unfold rsi_point. cbn [Chart.y fst snd]. by rewrite rsi_zero_gain.
Qed.


End rsi_more.

Lemma rsi_zero_without_rises_witness :
  ∃ pts, Chart.calculateRSI (Sample.ramp 1 0 16) 14 = Ret pts ∧
    Forall (λ p, Chart.y p = Fin 0%Qc) pts.
Proof.
  apply (rsi_zero_without_rises (Sample.ramp 1 0 16)).
  intros i c c' Hc Hc'.
  assert (Hi : (S i < 16)%nat).
  { apply lookup_lt_Some in Hc'. revert Hc'. vm_compute. lia. }
  do 15 (destruct i as [|i]; [injection Hc as <-; injection Hc' as <-; by vm_compute|]).
  lia.
Defined.

(** * [calculateRSI] with a period of zero *)

Section rsi_period_zero.
Import Spec.
Local Close Scope Qc_scope.

Lemma rsiValue_NaN : Chart.rsiValue NaN NaN = NaN.
Proof. reflexivity. Qed.

(** With NaN averages the steady-state loop pushes a NaN for every
    remaining candle. *)
Lemma steady_loop_NaN (data : list Chart.KlineData) (changes : list num)
    (body : nat → num * num * list Chart.Point
            → js (num * num * list Chart.Point)) :
  (∀ i avgGain avgLoss result, body i (avgGain, avgLoss, result) =
      let change := numAt changes i in
      let gain := if ngt change (lit 0) then change else lit 0 in
      let loss := if nlt change (lit 0) then Math_abs change else lit 0 in
      let avgGain := ((avgGain * (of_nat 0 - lit 1) + gain) / of_nat 0)%num in
      let avgLoss := ((avgLoss * (of_nat 0 - lit 1) + loss) / of_nat 0)%num in
      next ← elem data (i + 1)%nat;
      Ret (avgGain, avgLoss,
           result ++ [{| Chart.x := Chart.new_Date (Chart.timestamp next);
                         Chart.y := Chart.rsiValue avgGain avgLoss |}])) →
  ∀ (k a : nat) (result : list Chart.Point),
  (S a + k = length data)%nat →
  for_range body (seq a k) (NaN, NaN, result)
  = Ret (NaN, NaN,
         result ++ ((λ c, {| Chart.x := Chart.new_Date (Chart.timestamp c);
                             Chart.y := NaN |}) <$> drop (S a) data)).
Proof.
  intros Hbody. induction k as [|k IH]; intros a result Hak.
  - simpl. rewrite drop_ge by lia. by rewrite app_nil_r.
  - destruct (lookup_lt_is_Some_2 data (S a)) as [c Hc]; [lia|].
    cbn [seq for_range]. rewrite Hbody. cbv zeta.
    replace (a + 1)%nat with (S a) by lia.
    rewrite (elem_Some _ _ _ Hc). js_step.
    assert (Hg : ∀ g, ((NaN * (of_nat 0 - lit 1) + g) / of_nat 0)%num = NaN)
      by (by intros []).
    rewrite !Hg, rsiValue_NaN, bind_Ret, IH by lia.
    rewrite (drop_S _ _ _ Hc). cbn [fmap list_fmap].
    by rewrite <- app_assoc.
Qed.

(** A period of zero is not rejected: on a non-empty input the function
    returns one point per candle, and every value is NaN. *)
Theorem rsi_period_zero_is_NaN (data : list Chart.KlineData) :
  data ≠ [] →
  ∃ pts, Chart.calculateRSI data 0 = Ret pts ∧
    Chart.x <$> pts = (λ c, Chart.new_Date (Chart.timestamp c)) <$> data ∧
    Forall (λ p, Chart.y p = NaN) pts.
Proof.
  intros Hne. destruct data as [|c0 rest] eqn:Hdata; [done|]. rewrite <- Hdata.
  assert (Hlen : (0 < length data)%nat) by (rewrite Hdata; simpl; lia).
  assert (H0 : data !! 0%nat = Some c0) by (by rewrite Hdata).
  assert (Hrun : Chart.calculateRSI data 0
    = Ret ([{| Chart.x := Chart.new_Date (Chart.timestamp c0); Chart.y := NaN |}]
           ++ ((λ c, {| Chart.x := Chart.new_Date (Chart.timestamp c);
                        Chart.y := NaN |}) <$> drop 1 data))).
  { unfold Chart.calculateRSI. rewrite decide_False by lia.
    rewrite changes_loop. js_step.
    match goal with |- context [for_loop 0 0 ?b ?s] =>
      change (for_loop 0 0 b s) with (Ret s)
    end.
    js_step. rewrite (elem_Some _ _ _ H0). js_step.
    assert (Hseed : (lit 0 / of_nat 0)%num = NaN) by reflexivity.
    rewrite !Hseed, rsiValue_NaN. unfold for_loop. rewrite Nat.sub_0_r.
    match goal with |- context [for_range ?b _ _] =>
      rewrite (steady_loop_NaN data _ b (λ _ _ _ _, eq_refl))
    end; [by js_step|].
    rewrite length_fmap, length_deltas, length_fmap. lia. }
  eexists. split; [exact Hrun|]. split.
  - rewrite Hdata. cbn [drop app fmap list_fmap Chart.x]. f_equal.
    rewrite <- list_fmap_compose. by apply list_fmap_ext.
  - apply Forall_app. split; [by repeat constructor|].
    by apply Forall_fmap, Forall_true.
Qed.

End rsi_period_zero.

Lemma rsi_period_zero_is_NaN_witness :
  ∃ pts, Chart.calculateRSI (Sample.ramp 1 1 3) 0 = Ret pts ∧
    Chart.x <$> pts
    = (λ c, Chart.new_Date (Chart.timestamp c)) <$> Sample.ramp 1 1 3 ∧
    Forall (λ p, Chart.y p = NaN) pts.
Proof. apply (rsi_period_zero_is_NaN (Sample.ramp 1 1 3)). discriminate. Defined.

(** * What the indicators read *)

Section indicator_inputs.
Local Open Scope Qc_scope.
Import Spec.

Lemma rsi_points_inputs (period : nat) (data data' : list Chart.KlineData) :
  Chart.timestamp <$> data = Chart.timestamp <$> data' →
  deltas (Chart.close <$> data) = deltas (Chart.close <$> data') →
  rsi_points period data = rsi_points period data'.
Proof.
  intros Ht Hd. unfold rsi_points, wilder. rewrite Hd.
  set (w := let '(g, l) := seed period _ in _).
  transitivity (zip_with (λ t gl, {| Chart.x := Chart.new_Date t;
                                     Chart.y := Fin (rsi gl.1 gl.2) |})
                  (Chart.timestamp <$> drop period data) w).
  - by rewrite zip_with_fmap_l.
  - by rewrite fmap_drop, Ht, <- fmap_drop, zip_with_fmap_l.
Qed.

Lemma sma_points_inputs (period : nat) (data data' : list Chart.KlineData) :
  Chart.timestamp <$> data = Chart.timestamp <$> data' →
  Chart.close <$> data = Chart.close <$> data' →
  sma_points period data = sma_points period data'.
Proof.
  intros Ht Hc. unfold sma_points. rewrite Hc.
  transitivity (imap (λ k t, {| Chart.x := Chart.new_Date t;
                                Chart.y := Fin (sma period (period - 1 + k)
                                                  (Chart.close <$> data')) |})
                  (Chart.timestamp <$> drop (period - 1) data)).
  - by rewrite imap_fmap.
  - by rewrite fmap_drop, Ht, <- fmap_drop, imap_fmap.
Qed.

Lemma Forall2_fmap_eq {A B} (f : A → B) (l k : list A) :
  Forall2 (λ a b, f a = f b) l k → f <$> l = f <$> k.
Proof.
  induction 1 as [|a b l k Hab _ IH]; [done|].
  by rewrite !fmap_cons, Hab, IH.
Qed.

(** The three indicators read nothing of a candle but its timestamp and
    its close: open, high, low and volume never reach them. *)
Theorem indicators_read_close_only (data data' : list Chart.KlineData) :
  Forall2 (λ c c', Chart.timestamp c = Chart.timestamp c' ∧
                   Chart.close c = Chart.close c') data data' →
  Chart.sma20 data = Chart.sma20 data' ∧
  Chart.sma50 data = Chart.sma50 data' ∧
  Chart.calculateRSI data 14 = Chart.calculateRSI data' 14.
Proof.
  intros H.
  assert (Ht : Chart.timestamp <$> data = Chart.timestamp <$> data').
  { apply Forall2_fmap_eq. eapply Forall2_impl; [exact H|]. by intros ?? [??]. }
  assert (Hc : Chart.close <$> data = Chart.close <$> data').
  { apply Forall2_fmap_eq. eapply Forall2_impl; [exact H|]. by intros ?? [??]. }
  unfold Chart.sma20, Chart.sma50.
  rewrite !smaLoop_spec, !calculateRSI_eq by lia.
  rewrite (sma_points_inputs 20 data data'), (sma_points_inputs 50 data data'),
    (rsi_points_inputs 14 data data') by (done || by rewrite Hc).
  done.
Qed.

Lemma deltas_shift (closes closes' : list Qc) (s : Qc) :
  Forall2 (λ q q', q' = q + s) closes closes' →
  deltas closes' = deltas closes.
Proof.
  intros H. unfold deltas. apply list_eq. intros i.
  rewrite !lookup_zip_with, !lookup_tail.
  pose proof (proj1 (Forall2_lookup _ _ _) H i) as Hi.
  pose proof (proj1 (Forall2_lookup _ _ _) H (S i)) as HSi.
  destruct Hi as [p p' Hp|]; [|done]. simpl.
  destruct HSi as [c c' Hc|]; [|done]. simpl. subst. f_equal. ring.
Qed.


End indicator_inputs.

Lemma indicators_read_close_only_witness :
  Chart.sma20 (Sample.ramp 1 1 21) = Chart.sma20 (Sample2.repriced <$> Sample.ramp 1 1 21) ∧
  Chart.sma50 (Sample.ramp 1 1 21) = Chart.sma50 (Sample2.repriced <$> Sample.ramp 1 1 21) ∧
  Chart.calculateRSI (Sample.ramp 1 1 21) 14
  = Chart.calculateRSI (Sample2.repriced <$> Sample.ramp 1 1 21) 14.
Proof.
  apply (indicators_read_close_only (Sample.ramp 1 1 21)
           (Sample2.repriced <$> Sample.ramp 1 1 21)).
  apply (bool_decide_unpack _). vm_compute. exact I.
Defined.


(** * Further properties of the effect and of the handler *)

Section component_more.
Import Chart Component.
Local Close Scope Qc_scope.

Variable JSON_parse : string → js jsval.
Variable parseFloat : jsval → num.

Local Abbreviation onmessage := (Component.onmessage JSON_parse parseFloat).
Local Abbreviation step := (Component.step JSON_parse parseFloat).
Local Abbreviation run := (Component.run JSON_parse parseFloat).

(** The state the effect installs, in full. *)
Lemma processMarketData_full (d : list KlineData) (st : State) :
  processMarketData (Some d) st
  = Ret {| currentPrice := match last d with
                           | Some c => Some (Fin (close c))
                           | None => currentPrice st
                           end;
           candlestickData := (λ candle,
             {| ohlc_x := new_Date (timestamp candle);
                ohlc_y := [open candle; high candle; low candle; close candle] |})
             <$> d;
           volumeData := (λ candle,
             {| vol_x := new_Date (timestamp candle);
                vol_y := Chart.volume candle;
                fillColor := if nge (Fin (close candle)) (Fin (open candle))
                             then "#26a69a" else "#ef5350" |}) <$> d;
           rsiData := Spec.rsi_points 14 d;
           sma20Data := Spec.sma_points 20 d;
           sma50Data := Spec.sma_points 50 d |}.
Proof.
  unfold processMarketData, sma20, sma50. cbv zeta.
  rewrite (smaLoop_spec 20) by lia. js_step.
  rewrite (smaLoop_spec 50) by lia. js_step.
  rewrite (calculateRSI_eq d 14) by lia. js_step.
  case_decide as Hlen.
  - destruct (lookup_lt_is_Some_2 d (length d - 1)) as [c Hc]; [lia|].
    rewrite (elem_Some _ _ _ Hc). js_step.
    rewrite last_lookup. replace (pred (length d)) with (length d - 1)%nat by lia.
    by rewrite Hc.
  - destruct d as [|c d]; [done|]. simpl in Hlen. lia.
Qed.

(** A batch overwrites everything: what the effect leaves after a
    non-empty batch does not depend on the state before it, so running it
    again on the same batch changes nothing.  An empty batch empties all
    five series and keeps the price that was published before. *)
Theorem batch_overwrites_state :
  (∀ (d : list KlineData) (st1 st2 : State),
     d ≠ [] → processMarketData (Some d) st1 = processMarketData (Some d) st2) ∧
  (∀ (d : list KlineData) (st st' : State),
     processMarketData (Some d) st = Ret st' →
     processMarketData (Some d) st' = Ret st') ∧
  (∀ st : State,
     processMarketData (Some []) st
     = Ret {| currentPrice := currentPrice st; candlestickData := [];
              volumeData := []; rsiData := []; sma20Data := [];
              sma50Data := [] |}).
Proof.
  split; [|split].
  - intros d st1 st2 Hne. rewrite !processMarketData_full.
    destruct (last d) eqn:Hlast; [done|]. by apply last_None in Hlast.
  - intros d st st'. rewrite processMarketData_full. intros [= <-].
    rewrite processMarketData_full. cbn [currentPrice].
    by destruct (last d).
  - intros st. by rewrite processMarketData_full.
Qed.

(** The candle and volume series on screen are those of the latest batch:
    no socket message, closed or not, adds or revises a candle. *)
Theorem candles_follow_latest_batch (evs : list event) :
  candlestickData (run evs)
  = match last_batch evs with
    | Some d => (λ candle,
        {| ohlc_x := new_Date (timestamp candle);
           ohlc_y := [open candle; high candle; low candle; close candle] |})
        <$> d
    | None => []
    end ∧
  vol_x <$> volumeData (run evs)
  = match last_batch evs with
    | Some d => (λ candle, new_Date (timestamp candle)) <$> d
    | None => []
    end.
Proof.
  induction evs as [|ev evs [IHc IHv]] using rev_ind; [done|].
  unfold Component.run, last_batch in *. rewrite !foldl_snoc.
  destruct ev as [[d|]|captured event_data].
  - unfold Component.step. rewrite processMarketData_full.
    cbn [candlestickData volumeData]. split; [done|].
    rewrite <- list_fmap_compose. by apply list_fmap_ext.
  - done.
  - unfold Component.step. rewrite onmessage_state.
    by destruct (Component.event_price _ _ _).
Qed.


End component_more.

Lemma batch_overwrites_state_witness :
  Component.processMarketData (Some (Sample.ramp 1 1 3)) Component.init
  = Component.processMarketData (Some (Sample.ramp 1 1 3))
      (Component.setCurrentPrice NaN Component.init).
Proof.
  apply (proj1 batch_overwrites_state (Sample.ramp 1 1 3)).
  discriminate.
Defined.


(** * Odd payloads *)

Section payloads.
Import Component.
Local Close Scope Qc_scope.

Variable fetch : string → js Response.

Local Abbreviation fetchMarketData := (Component.fetchMarketData fetch).


End payloads.


(** * Rows of the upstream body *)

Section rows.
Import Route.
Local Close Scope Qc_scope.

Variable Number : jsval → num.
Variable parseFloat : jsval → num.

Local Abbreviation formatRow := (Route.formatRow Number parseFloat).

Lemma item_take (items : list jsval) (i : nat) :
  (i < 6)%nat → item (take 6 items) i = item items i.
Proof. intros Hi. unfold item. by rewrite lookup_take_lt. Qed.

Lemma item_padded (items : list jsval) (n i : nat) :
  item (items ++ replicate n JUndefined) i = item items i.
Proof.
  unfold item. destruct (decide (i < length items)%nat) as [Hi|Hi].
  - by rewrite lookup_app_l.
  - rewrite lookup_app_r, (lookup_ge_None_2 items) by lia. simpl.
    destruct (replicate n JUndefined !! (i - length items)%nat) as [v|] eqn:Hv;
      [|done].
    by apply lookup_replicate in Hv as [-> _].
Qed.

(** A row of any length is accepted.  Only its first six values are read,
    and a value that is missing is read as [undefined]: padding a short
    row with [undefined] changes nothing, and the empty row gives
    [Number(undefined)] and [parseFloat(undefined)] throughout. *)
Theorem formatRow_reads_six (items : list jsval) :
  formatRow (JArr (take 6 items)) = formatRow (JArr items) ∧
  (∀ n, formatRow (JArr (items ++ replicate n JUndefined))
        = formatRow (JArr items)) ∧
  formatRow (JArr [])
  = Ret {| timestamp := Number JUndefined; open := parseFloat JUndefined;
           high := parseFloat JUndefined; low := parseFloat JUndefined;
           close := parseFloat JUndefined; volume := parseFloat JUndefined |}.
Proof.
  repeat split.
  - unfold Route.formatRow. cbn [iterate]. rewrite !bind_Ret.
    by rewrite !item_take by lia.
  - intros n. unfold Route.formatRow. cbn [iterate]. rewrite !bind_Ret.
    by rewrite !item_padded.
Qed.

End rows.

(** * From the upstream to the component *)

Section end_to_end.
Import Route Wire.
Local Close Scope Qc_scope.

Variable upstream : string → js Response.
Variable Number : jsval → num.
Variable parseFloat : jsval → num.
Variable statusText : Z → string.
Variable body_text : NextResponse → string.

Local Abbreviation formatRow := (Route.formatRow Number parseFloat).
Local Abbreviation GET := (Route.GET upstream Number parseFloat).
Local Abbreviation client :=
  (Wire.fetch_through_route upstream Number parseFloat statusText body_text).

(** The answer of the route, case by case. *)
Lemma GET_result (symbol interval limit : option string) :
  GET symbol interval limit
  = Ret match upstream (klines_url (or_default symbol "BTCUSDT")
                          (or_default interval "1m") (or_default limit "500")) with
        | Ret resp =>
            if ok resp then
              match json resp with
              | Ret (JArr rows) =>
                  match mapM formatRow rows with
                  | Ret outs => {| nr_status := 200; nr_body := outs |}
                  | Throw _ => failure
                  end
              | _ => failure
              end
            else failure
        | Throw _ => failure
        end.
Proof.
  unfold Route.GET. cbv zeta.
  destruct (upstream _) as [resp|e]; [|done]. rewrite bind_Ret.
  destruct (ok resp); [|done]. cbn [negb].
  destruct (json resp) as [data|e]; [|done]. rewrite bind_Ret.
  destruct data; try done. cbn [array_map].
  by destruct (mapM formatRow items).
Qed.

Lemma client_on_failure (symbol interval : string) :
  ∃ e, Component.fetchMarketData
         (λ _, Ret (deliver (statusText (nr_status failure))
                      (body_text failure) failure))
         symbol interval = Throw e.
Proof. by eexists. Qed.

Lemma client_on_success (symbol interval : string) (outs : list KlineData) :
  Component.fetchMarketData
    (λ _, Ret (deliver (statusText 200)
                 (body_text {| nr_status := 200; nr_body := outs |})
                 {| nr_status := 200; nr_body := outs |}))
    symbol interval
  = if decide (outs = []) then Throw (Error "No data received from API")
    else Ret (JArr (record_over_wire <$> outs)).
Proof.
  unfold Component.fetchMarketData. rewrite bind_Ret.
  change (ok _) with true. cbn [negb deliver json nr_body]. rewrite !bind_Ret.
  cbn [getProp]. rewrite decide_True by done. rewrite bind_Ret.
  cbn [truthy negb orb strict_eq_num]. rewrite lit_eq_0, length_fmap.
  destruct outs; by cbn.
Qed.

(** The route and [fetchMarketData] together.  Whatever goes wrong
    upstream (the request fails, the response is not ok, the body is an
    empty array) reaches the caller as a thrown error; and when data is
    returned, the upstream answered ok with a non-empty array of rows, and
    the data holds one object per row, in order. *)
Theorem upstream_failure_reaches_caller (symbol interval : string) :
  let url := klines_url (or_default (Some symbol) "BTCUSDT")
               (or_default (Some interval) "1m") "500" in
  (∀ e, upstream url = Throw e → ∃ e', client symbol interval = Throw e') ∧
  (∀ resp, upstream url = Ret resp → ok resp = false →
     ∃ e', client symbol interval = Throw e') ∧
  (∀ resp, upstream url = Ret resp → ok resp = true →
     json resp = Ret (JArr []) →
     client symbol interval = Throw (Error "No data received from API")) ∧
  (∀ data, client symbol interval = Ret data →
     ∃ resp rows outs, upstream url = Ret resp ∧ ok resp = true ∧
       json resp = Ret (JArr rows) ∧ rows ≠ [] ∧
       Forall2 (λ row out, formatRow row = Ret out) rows outs ∧
       data = JArr (record_over_wire <$> outs)).
Proof.
  intros url.
  assert (Hclient : ∀ r, GET (Some symbol) (Some interval) None = Ret r →
    client symbol interval
    = Component.fetchMarketData
        (λ _, Ret (deliver (statusText (nr_status r)) (body_text r) r))
        symbol interval).
  { intros r Hr. unfold Wire.fetch_through_route, Component.fetchMarketData,
      Wire.route_fetch. by rewrite Hr. }
  pose proof (GET_result (Some symbol) (Some interval) None) as HGET.
  change (or_default None "500") with "500" in HGET. fold url in HGET.
  split; [|split; [|split]].
  - intros e He. rewrite He in HGET. rewrite (Hclient _ HGET).
    apply client_on_failure.
  - intros resp Hresp Hok. rewrite Hresp, Hok in HGET. rewrite (Hclient _ HGET).
    apply client_on_failure.
  - intros resp Hresp Hok Hjson.
    assert (HGET' : GET (Some symbol) (Some interval) None
                    = Ret {| nr_status := 200; nr_body := [] |}).
    { by rewrite HGET, Hresp, Hok, Hjson. }
    rewrite (Hclient _ HGET'). cbn [nr_status].
    by rewrite (client_on_success symbol interval []).
  - intros data.
    assert (Hfail : GET (Some symbol) (Some interval) None = Ret failure →
                    client symbol interval ≠ Ret data).
    { intros Hr. rewrite (Hclient _ Hr).
      by destruct (client_on_failure symbol interval) as [e' ->]. }
    destruct (upstream url) as [resp|e] eqn:Hresp; [|by intros ?%Hfail].
    destruct (ok resp) eqn:Hok; [|by intros ?%Hfail].
    destruct (json resp) as [[| | | | |rows|]|e] eqn:Hjson;
      try (by intros ?%Hfail).
    destruct (mapM formatRow rows) as [outs|e] eqn:Hmap; [|by intros ?%Hfail].
    rewrite (Hclient _ HGET). cbn [nr_status]. rewrite client_on_success.
    case_decide as Houts; [done|]. intros [= <-].
    apply mapM_Ret in Hmap. exists resp, rows, outs.
    repeat split; try done.
    intros ->. by apply Forall2_nil_inv_l in Hmap.
Qed.

End end_to_end.

Lemma upstream_failure_reaches_caller_witness :
  ∃ e', Wire.fetch_through_route (λ _, Ret Sample.response_500)
          (λ _, lit 0) (λ _, lit 1) (λ _, "status") (λ _, "body")
          "BTCUSDT" "1m" = Throw e'.
Proof.
  apply (proj1 (proj2 (upstream_failure_reaches_caller
           (λ _, Ret Sample.response_500) (λ _, lit 0) (λ _, lit 1)
           (λ _, "status") (λ _, "body") "BTCUSDT" "1m"))
         Sample.response_500); reflexivity.
Defined.

(** * The life of the sockets *)

Section sockets.
Import Socket.
Local Close Scope Qc_scope.

Variable WebSocket : string → js unit.
Variable toLowerCase : string → string.

Local Abbreviation connect := (Socket.connect WebSocket toLowerCase).
Local Abbreviation step := (Socket.step WebSocket toLowerCase).
Local Abbreviation run := (Socket.run WebSocket toLowerCase).

Lemma inv_start : inv start.
Proof. split; cbn; try done; [intros s Hs; by apply elem_of_nil in Hs | intros _ s Hs; lia]. Qed.

(** The effect body, run with the [wsRef] the render saw, in a world where
    the current socket is that one or none. *)
Lemma inv_connect (seen : option nat) (w : World) :
  (∀ s, s ∈ closed w → (s < sockets w)%nat) →
  (∀ s, seen = Some s → (s < sockets w)%nat) →
  (∀ s, (s < sockets w)%nat → s ∈ closed w ∨ seen = Some s) →
  (∀ s, wsRef (conn w) = Some s → seen = Some s ∧ s ∉ closed w) →
  inv (setLife (Mounted seen) (connect seen w)).
Proof.
  intros Hclosed Hseen Hothers Hcur. unfold Socket.connect.
  set (w1 := teardown seen w).
  assert (H1 : sockets w1 = sockets w) by (unfold w1; by destruct seen).
  assert (Hc1 : ∀ s, s ∈ closed w1 ↔ s ∈ closed w ∨ seen = Some s).
  { intros s. unfold w1. destruct seen as [s0|]; cbn.
    - rewrite elem_of_app, list_elem_of_singleton.
      split; (intros [?|?]; [by left|right; congruence]).
    - split; [by left|]. by intros [?|?]. }
  assert (Hw1 : wsRef (conn w1) = None).
  { unfold w1. destruct seen as [s0|]; [done|]. cbn.
    destruct (wsRef (conn w)) as [s|] eqn:Hs; [|done].
    by destruct (Hcur s eq_refl). }
  cbv zeta. destruct (WebSocket _) as [[]|e]; split; cbn; rewrite ?H1.
  - intros s Hs. apply Hc1 in Hs as [Hs|Hs]; [apply Hclosed in Hs|apply Hseen in Hs]; lia.
  - intros s [= <-]. split; [lia|].
    intros Hs. apply Hc1 in Hs as [Hs|Hs]; [apply Hclosed in Hs|apply Hseen in Hs]; lia.
  - intros s [= ->]. apply Hc1. by right.
  - intros _ s Hs. destruct (decide (s = sockets w)) as [->|Hne]; [by right|].
    left. apply Hc1. apply Hothers. lia.
  - done.
  - intros s Hs. apply Hc1 in Hs as [Hs|Hs]; [by apply Hclosed|by apply Hseen].
  - intros s Hs. by rewrite Hw1 in Hs.
  - intros s [= ->]. apply Hc1. by right.
  - intros _ s Hs. left. apply Hc1. by apply Hothers.
  - done.
Qed.

Lemma inv_rerun (previous : option nat) (w : World) :
  inv w → life w = Mounted previous →
  ∀ w', closed w' = closed w → sockets w' = sockets w →
        wsRef (conn w') = wsRef (conn w) →
  inv (rerun WebSocket toLowerCase previous (wsRef (conn w)) w').
Proof.
  intros [Hclosed Hcur Hcap Hothers _] Hlife w' Hc Hn Hr. unfold rerun.
  set (w1 := teardown previous w').
  assert (H1 : sockets w1 = sockets w) by (unfold w1; by destruct previous).
  assert (Hc1 : ∀ s, s ∈ closed w1 ↔ s ∈ closed w).
  { intros s. unfold w1. destruct previous as [p|]; cbn; rewrite Hc; [|done].
    rewrite elem_of_app, list_elem_of_singleton. split; [|by left].
    intros [?| ->]; [done|]. by apply Hcap. }
  apply inv_connect; rewrite ?H1.
  - intros s Hs%Hc1. by apply Hclosed.
  - intros s Hs. by apply Hcur.
  - intros s Hs. destruct (Hothers ltac:(by rewrite Hlife) s Hs) as [?|?];
      [left; by apply Hc1|by right].
  - intros s Hs. assert (wsRef (conn w) = Some s) as Hw.
    { unfold w1 in Hs. destruct previous; cbn in Hs; [done|by rewrite <- Hr]. }
    split; [done|]. intros Hin%Hc1. by destruct (Hcur s Hw).
Qed.

Lemma inv_step (w : World) (ev : event) : inv w → inv (step w ev).
Proof.
  intros Hinv. pose proof Hinv as [Hclosed Hcur Hcap Hothers Hbefore].
  unfold Socket.step. destruct (life w) as [|previous|] eqn:Hlife.
  - destruct ev; try done. destruct (Hbefore eq_refl) as [Hr Hs].
    rewrite Hr. apply inv_connect.
    + done.
    + done.
    + intros s. lia.
    + intros s. by rewrite Hr.
  - destruct ev as [|v|v| |s|s|s].
    + done.
    + case_decide; [done|]. by apply inv_rerun.
    + case_decide; [done|]. by apply inv_rerun.
    + split; cbn.
      * intros s. destruct previous as [p|]; cbn; [|apply Hclosed].
        rewrite elem_of_app, list_elem_of_singleton.
        intros [?| ->]; [by apply Hclosed|]. by apply Hclosed, Hcap.
      * intros s. destruct previous as [p|]; cbn; [done|]. apply Hcur.
      * done.
      * done.
      * done.
    + split; cbn; rewrite ?Hlife; done.
    + split; cbn; rewrite ?Hlife; done.
    + split; cbn; rewrite ?Hlife; done.
  - by destruct ev.
Qed.

Lemma inv_run (evs : list event) : inv (run evs).
Proof.
  induction evs as [|ev evs IH] using rev_ind; [apply inv_start|].
  unfold Socket.run. rewrite foldl_snoc. by apply inv_step.
Qed.

Lemma step_unmounted (w : World) (ev : event) :
  life w = Unmounted → step w ev = w.
Proof. intros H. unfold Socket.step. rewrite H. by destruct ev. Qed.

Lemma run_unmounted (w : World) (evs : list event) :
  life w = Unmounted → foldl step w evs = w.
Proof.
  intros H. induction evs as [|ev evs IH]; [done|].
  simpl. by rewrite step_unmounted.
Qed.

(** While the component is alive, the sockets still open are exactly the
    one [wsRef] holds: a change of symbol or interval calls [close()] on
    the socket in use before the next one is created. *)
Theorem one_socket_while_mounted (evs : list event) (s : nat) :
  life (run evs) ≠ Unmounted →
  s ∈ open_sockets (run evs) ↔ wsRef (conn (run evs)) = Some s.
Proof.
  intros Hlife. destruct (inv_run evs) as [Hclosed Hcur _ Hothers _].
  unfold open_sockets. rewrite list_elem_of_filter, elem_of_seq. split.
  - intros [Hopen [_ Hlt]]. by destruct (Hothers Hlife s Hlt).
  - intros Hs. destruct (Hcur s Hs). split; [done|lia].
Qed.

(** Unmounting does not close the socket in use: the clean-up function
    closes the socket its render had captured, which the effect had
    already closed, and [close()] is never called on the socket the effect
    created, whatever happens afterwards. *)
Theorem unmount_leaves_socket_open (evs later : list event) (s : nat) :
  life (run evs) ≠ Unmounted →
  wsRef (conn (run evs)) = Some s →
  s ∈ open_sockets (run (evs ++ Unmount :: later)).
Proof.
  intros Hlife Hs. destruct (inv_run evs) as [Hclosed Hcur Hcap _ Hbefore].
  destruct (Hcur s Hs) as [Hlt Hopen].
  unfold Socket.run. rewrite foldl_app. cbn [foldl]. fold (run evs).
  assert (Hafter : sockets (step (run evs) Unmount) = sockets (run evs) ∧
                   (s ∉ closed (step (run evs) Unmount)) ∧
                   life (step (run evs) Unmount) = Unmounted).
  { unfold Socket.step. destruct (life (run evs)) as [|previous|] eqn:Hl.
    - destruct (Hbefore eq_refl) as [Hr _]. by rewrite Hr in Hs.
    - cbn. destruct previous as [p|]; cbn; [|done].
      split; [done|]. split; [|done].
      rewrite elem_of_app, list_elem_of_singleton. intros [?| ->]; [done|].
      apply Hopen. by apply Hcap.
    - done. }
  destruct Hafter as (Hn & Hc & Hu). rewrite run_unmounted by done.
  unfold open_sockets. rewrite list_elem_of_filter, elem_of_seq, Hn.
  split; [done|lia].
Qed.

End sockets.

Lemma one_socket_while_mounted_witness :
  1%nat ∈ Socket.open_sockets
    (Socket.run (λ _, Ret ()) (λ s, s)
       [Socket.Mount; Socket.SockOpen 0; Socket.SymbolChange "ETHUSDT"]).
Proof.
  apply (one_socket_while_mounted (λ _, Ret ()) (λ s, s)
           [Socket.Mount; Socket.SockOpen 0; Socket.SymbolChange "ETHUSDT"] 1).
  - discriminate.
  - reflexivity.
Defined.

Lemma unmount_leaves_socket_open_witness :
  0%nat ∈ Socket.open_sockets
    (Socket.run (λ _, Ret ()) (λ s, s)
       ([Socket.Mount; Socket.SockOpen 0] ++ Socket.Unmount :: [Socket.SockClose 0])).
Proof.
  apply (unmount_leaves_socket_open (λ _, Ret ()) (λ s, s)
           [Socket.Mount; Socket.SockOpen 0] [Socket.SockClose 0] 0).
  - discriminate.
  - reflexivity.
Defined.

(** * Appending candles *)

Section appending.
Local Open Scope Qc_scope.
Import Spec.

Lemma deltas_app (l m : list Qc) : ∃ r, deltas (l ++ m) = deltas l ++ r.
Proof.
  exists (drop (length (deltas l)) (deltas (l ++ m))).
  rewrite <- (take_drop (length (deltas l)) (deltas (l ++ m))) at 1. f_equal.
  apply list_eq. intros i.
  destruct (decide (i < length (deltas l))%nat) as [Hi|Hi].
  - rewrite lookup_take_lt by done. rewrite length_deltas in Hi.
    unfold deltas. rewrite !lookup_zip_with, !lookup_tail.
    by rewrite !lookup_app_l by lia.
  - rewrite lookup_take_ge by lia. by rewrite lookup_ge_None_2 by lia.
Qed.

Lemma wilder_run_app (period : nat) (g l : Qc) (a b : list Qc) :
  ∃ w, wilder_run period g l (a ++ b) = wilder_run period g l a ++ w.
Proof.
  revert g l. induction a as [|d a IH]; intros g l; simpl.
  - by eexists.
  - destruct (IH (smooth period g (gain d)) (smooth period l (loss d))) as [w ->].
    by eexists.
Qed.

Lemma wilder_app (period : nat) (closes more : list Qc) :
  (period < length closes)%nat →
  ∃ w, wilder period (closes ++ more) = wilder period closes ++ w.
Proof.
  intros Hp. unfold wilder. destruct (deltas_app closes more) as [r ->].
  assert (Hlen : (period ≤ length (deltas closes))%nat)
    by (rewrite length_deltas; lia).
  unfold seed. rewrite take_app_le, drop_app_le by done.
  destruct (wilder_run_app period
              (mean (gain <$> take period (deltas closes)))
              (mean (loss <$> take period (deltas closes)))
              (drop period (deltas closes)) r) as [w ->].
  by eexists.
Qed.

Lemma rsi_points_app (period : nat) (data more : list Chart.KlineData) :
  ∃ pts, rsi_points period (data ++ more) = rsi_points period data ++ pts.
Proof.
  destruct (decide (length data ≤ period)%nat) as [Hshort|Hlong].
  - exists (rsi_points period (data ++ more)).
    unfold rsi_points at 2. by rewrite drop_ge.
  - unfold rsi_points. rewrite fmap_app.
    destruct (wilder_app period (Chart.close <$> data) (Chart.close <$> more))
      as [w ->]; [rewrite length_fmap; lia|].
    rewrite drop_app_le by lia. rewrite zip_with_app; [by eexists|].
    rewrite length_drop, length_wilder, length_fmap. lia.
Qed.

Lemma sma_points_app (period : nat) (data more : list Chart.KlineData) :
  (0 < period)%nat →
  ∃ pts, sma_points period (data ++ more) = sma_points period data ++ pts.
Proof.
  intros Hp. unfold sma_points. rewrite drop_app, imap_app. eexists.
  f_equal. apply imap_ext. intros k c Hk. cbn. do 2 f_equal.
  apply lookup_lt_Some in Hk. rewrite length_drop in Hk.
  unfold sma, window. f_equal.
  replace (period - 1 + k + 1 - period)%nat with k by lia.
  rewrite fmap_app, drop_app_le by (rewrite length_fmap; lia).
  rewrite take_app_le; [done|]. rewrite length_drop, length_fmap. lia.
Qed.

(** The indicators never revise a point: when candles are added at the
    end, each series keeps the points it had and only grows. *)
Theorem indicators_only_grow (data more : list Chart.KlineData) :
  ∃ s20 s20' s50 s50' r r',
    Chart.sma20 data = Ret s20 ∧ Chart.sma20 (data ++ more) = Ret (s20 ++ s20') ∧
    Chart.sma50 data = Ret s50 ∧ Chart.sma50 (data ++ more) = Ret (s50 ++ s50') ∧
    Chart.calculateRSI data 14 = Ret r ∧
    Chart.calculateRSI (data ++ more) 14 = Ret (r ++ r').
Proof.
  destruct (sma_points_app 20 data more) as [s20' H20]; [lia|].
  destruct (sma_points_app 50 data more) as [s50' H50]; [lia|].
  destruct (rsi_points_app 14 data more) as [r' Hr].
  exists (sma_points 20 data), s20', (sma_points 50 data), s50',
    (rsi_points 14 data), r'.
  unfold Chart.sma20, Chart.sma50.
  rewrite !smaLoop_spec, !calculateRSI_eq by lia.
  by rewrite H20, H50, Hr.
Qed.

End appending.
